(** * tape~ : Airwindows Tape saturation for Pure Data

    Shallow embedding of [externals-src/airwindows pd emulation /tape.c].

    The C file computes on [FLOAT], a macro for [double].  The embedding
    keeps that macro as a parameter: the code is transcribed once, over
    an interface [FloatOps] of the operations the source uses, and is
    read at two instances.

    - [Binary64]: IEEE 754 binary64, the primitive floats of Rocq.  The
      four <math.h> functions the file calls ([sin], [cos], [tan],
      [asin]) are not part of the repository; they form a second
      interface [Libm], which stays a parameter at this instance.  This
      is what the compiled external computes; it is executable, and a
      comparison with NaN is false as in C.
    - [Exact]: real numbers, every operation without rounding and the
      <math.h> functions as the mathematical ones.  Bounds that need
      analysis are established for this reading.

    Samples are taken at the [FLOAT] value the loop reads from [*in] and
    assigns to [*out]; the width of Pd's [t_float] is declared in
    m_pd.h, outside the repository. *)

Set Warnings "-inexact-float".
From Stdlib Require Import ZArith List Bool Lia QArith Qreals Reals Lra Psatz Floats.
Import ListNotations.
Local Close Scope Q_scope.
Local Open Scope Z_scope.

(** ** Numeric interface *)

(** A decimal literal of the C source, with the value it denotes
    ([dec]) and the binary64 number the compiler rounds it to ([b64]). *)
Record literal := Literal { dec : Q ; b64 : float }.

Class FloatOps (F : Type) := {
  lit  : literal -> F ;
  M_PI : F ;
  fadd : F -> F -> F ;
  fsub : F -> F -> F ;
  fmul : F -> F -> F ;
  fdiv : F -> F -> F ;
  fneg : F -> F ;
  fabs : F -> F ;
  fgt : F -> F -> bool ;
  flt : F -> F -> bool ;
  fge : F -> F -> bool ;
  fle : F -> F -> bool ;
  feq : F -> F -> bool
}.

(** The functions of <math.h> that tape.c calls besides [fabs]. *)
Class Libm (F : Type) := {
  fsin : F -> F ;
  fcos : F -> F ;
  ftan : F -> F ;
  fasin : F -> F
}.

Declare Scope tape_scope.
Delimit Scope tape_scope with tape.
Notation "x + y" := (fadd x y) : tape_scope.
Notation "x - y" := (fsub x y) : tape_scope.
Notation "x * y" := (fmul x y) : tape_scope.
Notation "x / y" := (fdiv x y) : tape_scope.
Notation "- x" := (fneg x) : tape_scope.
Notation "x >? y" := (fgt x y) (at level 70, no associativity) : tape_scope.
Notation "x <? y" := (flt x y) (at level 70, no associativity) : tape_scope.
Notation "x >=? y" := (fge x y) (at level 70, no associativity) : tape_scope.
Notation "x <=? y" := (fle x y) (at level 70, no associativity) : tape_scope.
Notation "x ==? y" := (feq x y) (at level 70, no associativity) : tape_scope.

(** *** The literals of tape.c *)

Definition c_0 : literal := Literal 0 0%float.
Definition c_1 : literal := Literal 1 1%float.
Definition c_2 : literal := Literal 2 2%float.
Definition c_44100 : literal := Literal 44100 44100%float.
Definition c_0_99 : literal := Literal (99 # 100) 0.99%float.
Definition c_0_05 : literal := Literal (5 # 100) 0.05%float.
Definition c_0_12 : literal := Literal (12 # 100) 0.12%float.
Definition c_0_0072 : literal := Literal (72 # 10000) 0.0072%float.
Definition c_0_0009 : literal := Literal (9 # 10000) 0.0009%float.
Definition c_0_00013 : literal := Literal (13 # 100000) 0.00013%float.
Definition c_1_57079633 : literal :=
  Literal (157079633 # 100000000) 1.57079633%float.
Definition c_1_2533141373155 : literal :=
  Literal (12533141373155 # 10000000000000) 1.2533141373155%float.
Definition c_golden : literal :=
  Literal (618033988749894848204586 # 1000000000000000000000000)
          0.618033988749894848204586%float.

(** [#define INPUT_GAIN 1.0] and [#define HEAD_BUMP 0.05]. *)
Definition INPUT_GAIN : literal := c_1.
Definition HEAD_BUMP : literal := c_0_05.

(** ** The program *)

Section Tape.
Context {F : Type} {FO : FloatOps F} {LM : Libm F}.
Local Open Scope tape_scope.

(** [FLOAT biquadA[9]]: slots 2..6 hold a0, a1, a2, b1, b2, slots 7
    and 8 the delay memory; slots 0 and 1 are never used. *)
Record biquad := Biquad {
  bq0 : F ; bq1 : F ; bq2 : F ; bq3 : F ; bq4 : F ;
  bq5 : F ; bq6 : F ; bq7 : F ; bq8 : F
}.

(** [struct _tape], without the Pd object header and [x_f]. *)
Record t_tape := Tape {
  x_sr : F ;
  iirMidRollerA : F ;
  iirMidRollerB : F ;
  iirHeadBumpA : F ;
  iirHeadBumpB : F ;
  biquadA : biquad ;
  biquadB : biquad ;
  lastSample : F ;
  flip : Z
}.

(** [spiral_saturate], lines 42-53. *)
Definition spiral_saturate (input : F) : F :=
  let input :=
    if input >? lit c_1_2533141373155 then lit c_1_2533141373155 else input in
  let input :=
    if input <? - lit c_1_2533141373155 then - lit c_1_2533141373155 else input in
  let absInput := fabs input in
  if absInput ==? lit c_0 then lit c_0
  else fsin (input * absInput) / absInput.

(** [adclip], lines 57-87.  Returns the value returned by the C
    function and the value left in [*lastSample]. *)
Definition adclip (input lastSample : F) : F * F :=
  let softness := lit c_golden in
  let lastSample :=
    if lastSample >=? lit c_0_99 then
      if input <? lit c_0_99
      then (lit c_0_99 * softness) + (input * (lit c_1 - softness))
      else lit c_0_99
    else lastSample in
  let lastSample :=
    if lastSample <=? - lit c_0_99 then
      if input >? - lit c_0_99
      then (- lit c_0_99 * softness) + (input * (lit c_1 - softness))
      else - lit c_0_99
    else lastSample in
  let input :=
    if input >? lit c_0_99 then
      if lastSample <? lit c_0_99
      then (lit c_0_99 * softness) + (lastSample * (lit c_1 - softness))
      else lit c_0_99
    else input in
  let input :=
    if input <? - lit c_0_99 then
      if lastSample >? - lit c_0_99
      then (- lit c_0_99 * softness) + (lastSample * (lit c_1 - softness))
      else - lit c_0_99
    else input in
  (input, input).

(** [tape_new], lines 90-111.  [x_sr] is not assigned there; the
    object comes zero-filled from [pd_new]. *)
Definition biquad_zero : biquad :=
  Biquad (lit c_0) (lit c_0) (lit c_0) (lit c_0) (lit c_0)
         (lit c_0) (lit c_0) (lit c_0) (lit c_0).

Definition tape_new : t_tape :=
  Tape (lit c_0) (lit c_0) (lit c_0) (lit c_0) (lit c_0)
       biquad_zero biquad_zero (lit c_0) 0.

(** [tape_dsp], lines 230-234: the host reports the sample rate. *)
Definition tape_dsp (sr : F) (x : t_tape) : t_tape :=
  Tape sr (iirMidRollerA x) (iirMidRollerB x) (iirHeadBumpA x)
       (iirHeadBumpB x) (biquadA x) (biquadB x) (lastSample x) (flip x).

(** *** Block prologue, lines 121-141 *)

Definition overallscale (sr : F) : F := sr / lit c_44100.
Definition RollAmount (sr : F) : F :=
  (lit c_1 - lit c_golden) / overallscale sr.
Definition HeadBumpFreq (sr : F) : F := lit c_0_12 / overallscale sr.
Definition biquadFreq (sr : F) : F := lit c_0_0072 / overallscale sr.
Definition biquadQ : F := lit c_0_0009.
Definition coef_K (sr : F) : F := ftan (M_PI * biquadFreq sr).
Definition coef_norm (sr : F) : F :=
  lit c_1 / (lit c_1 + coef_K sr / biquadQ + coef_K sr * coef_K sr).
Definition coef_a0 (sr : F) : F := coef_K sr / biquadQ * coef_norm sr.
Definition coef_a1 (sr : F) : F := lit c_0.
Definition coef_a2 (sr : F) : F := - coef_a0 sr.
Definition coef_b1 (sr : F) : F :=
  lit c_2 * (coef_K sr * coef_K sr - lit c_1) * coef_norm sr.
Definition coef_b2 (sr : F) : F :=
  (lit c_1 - coef_K sr / biquadQ + coef_K sr * coef_K sr) * coef_norm sr.

Definition set_coefs (sr : F) (b : biquad) : biquad :=
  Biquad (bq0 b) (bq1 b) (coef_a0 sr) (coef_a1 sr) (coef_a2 sr)
         (coef_b1 sr) (coef_b2 sr) (bq7 b) (bq8 b).

(** Lines 137-141. *)
Definition store_coefs (x : t_tape) : t_tape :=
  Tape (x_sr x) (iirMidRollerA x) (iirMidRollerB x) (iirHeadBumpA x)
       (iirHeadBumpB x) (set_coefs (x_sr x) (biquadA x))
       (set_coefs (x_sr x) (biquadB x)) (lastSample x) (flip x).

(** *** Loop body, lines 145-223 *)

(** One branch of the [if (x->flip)], lines 158-174 and 178-192: the
    two branches are the same text with suffix A or B.  From the
    roller, the head bump and the biquad of the chosen phase it yields
    their new values and [HighsSample]. *)
Definition phase_update (roll hbf : F) (mid hb : F) (bq : biquad)
    (inputSample : F) : F * F * biquad * F :=
  let mid := (mid * (lit c_1 - roll)) + (inputSample * roll) in
  let HighsSample := inputSample - mid in
  let hb := hb + (inputSample * lit c_0_05) in
  let hb := hb - (hb * hb * hb * hbf) in
  let hb := fsin hb in
  let tempSample := (hb * bq2 bq) + bq7 bq in
  let z7 := (hb * bq3 bq) - (tempSample * bq5 bq) + bq8 bq in
  let z8 := (hb * bq4 bq) - (tempSample * bq6 bq) in
  let hb := tempSample in
  let hb := if hb >? lit c_1 then lit c_1 else hb in
  let hb := if hb <? - lit c_1 then - lit c_1 else hb in
  let hb := fasin hb in
  (mid, hb,
   Biquad (bq0 bq) (bq1 bq) (bq2 bq) (bq3 bq) (bq4 bq) (bq5 bq) (bq6 bq) z7 z8,
   HighsSample).

(** Lines 155-194: the phase branch and the toggle of [flip]. *)
Definition flip_step (roll hbf : F) (x : t_tape) (inputSample : F)
    : t_tape * F :=
  if Z.eqb (flip x) 0 then
    let '(mid, hb, bq, highs) :=
      phase_update roll hbf (iirMidRollerB x) (iirHeadBumpB x) (biquadB x)
                   inputSample in
    (Tape (x_sr x) (iirMidRollerA x) mid (iirHeadBumpA x) hb
          (biquadA x) bq (lastSample x) 1, highs)
  else
    let '(mid, hb, bq, highs) :=
      phase_update roll hbf (iirMidRollerA x) (iirHeadBumpA x) (biquadA x)
                   inputSample in
    (Tape (x_sr x) mid (iirMidRollerB x) hb (iirHeadBumpB x)
          bq (biquadB x) (lastSample x) 0, highs).

(** Lines 197-201. *)
Definition soften (HighsSample inputSample : F) : F :=
  let applySoften := fabs HighsSample * lit c_1_57079633 in
  let applySoften :=
    if applySoften >? lit c_1_57079633 then lit c_1_57079633
    else applySoften in
  let applySoften := lit c_1 - fcos applySoften in
  let inputSample :=
    if HighsSample >? lit c_0 then inputSample - applySoften
    else inputSample in
  if HighsSample <? lit c_0 then inputSample + applySoften
  else inputSample.

(** Line 207. *)
Definition suppress_of (inputSample : F) : F :=
  (lit c_1 - fabs inputSample) * lit c_0_00013.

(** Lines 208-209 (and 210-211) on one head-bump state. *)
Definition restrain (suppress hb : F) : F :=
  let hb := if hb >? suppress then hb - suppress else hb in
  if hb <? - suppress then hb + suppress else hb.

(** Lines 220-221. *)
Definition hardclip (inputSample : F) : F :=
  let inputSample :=
    if inputSample >? lit c_0_99 then lit c_0_99 else inputSample in
  if inputSample <? - lit c_0_99 then - lit c_0_99 else inputSample.

(** The value handed to [adclip] at line 217, with the state after
    lines 145-214. *)
Definition pre_clip (roll hbf : F) (x : t_tape) (sample : F)
    : t_tape * F :=
  let inputSample := sample * lit INPUT_GAIN in
  let '(x1, HighsSample) := flip_step roll hbf x inputSample in
  let inputSample := soften HighsSample inputSample in
  let inputSample := spiral_saturate inputSample in
  let suppress := suppress_of inputSample in
  let hbA := restrain suppress (iirHeadBumpA x1) in
  let hbB := restrain suppress (iirHeadBumpB x1) in
  let inputSample := inputSample + ((hbA + hbB) * lit HEAD_BUMP) in
  (Tape (x_sr x1) (iirMidRollerA x1) (iirMidRollerB x1) hbA hbB
        (biquadA x1) (biquadB x1) (lastSample x1) (flip x1),
   inputSample).

(** One turn of the [while (n--)] loop: the new state and the sample
    written to [*out]. *)
Definition tape_sample (roll hbf : F) (x : t_tape) (sample : F)
    : t_tape * F :=
  let '(x2, inputSample) := pre_clip roll hbf x sample in
  let '(inputSample, last) := adclip inputSample (lastSample x2) in
  (Tape (x_sr x2) (iirMidRollerA x2) (iirMidRollerB x2) (iirHeadBumpA x2)
        (iirHeadBumpB x2) (biquadA x2) (biquadB x2) last (flip x2),
   hardclip inputSample).

Fixpoint tape_loop (roll hbf : F) (x : t_tape) (input : list F)
    : t_tape * list F :=
  match input with
  | [] => (x, [])
  | s :: rest =>
      let '(x1, o) := tape_sample roll hbf x s in
      let '(x2, os) := tape_loop roll hbf x1 rest in
      (x2, o :: os)
  end.

(** [tape_perform], lines 114-227, on a block of [n = length input]
    samples. *)
Definition tape_perform (x : t_tape) (input : list F) : t_tape * list F :=
  tape_loop (RollAmount (x_sr x)) (HeadBumpFreq (x_sr x))
            (store_coefs x) input.

End Tape.

Arguments biquad F : clear implicits.
Arguments t_tape F : clear implicits.

(** ** The two readings of [FLOAT] *)

(** IEEE 754 binary64.  C's [a > b] is [b < a]; every comparison with a
    NaN is false. *)
#[export] Instance Binary64 : FloatOps float := {|
  lit := b64 ;
  M_PI := 3.14159265358979323846%float ;
  fadd := PrimFloat.add ;
  fsub := PrimFloat.sub ;
  fmul := PrimFloat.mul ;
  fdiv := PrimFloat.div ;
  fneg := PrimFloat.opp ;
  fabs := PrimFloat.abs ;
  fgt := fun a b => PrimFloat.ltb b a ;
  flt := PrimFloat.ltb ;
  fge := fun a b => PrimFloat.leb b a ;
  fle := PrimFloat.leb ;
  feq := PrimFloat.eqb
|}.

Definition Rltb (a b : R) : bool := if Rlt_dec a b then true else false.
Definition Rleb (a b : R) : bool := if Rle_dec a b then true else false.
Definition Reqb (a b : R) : bool := if Req_dec_T a b then true else false.

(** Exact real arithmetic. *)
#[export] Instance Exact : FloatOps R := {|
  lit := fun l => Q2R (dec l) ;
  M_PI := PI ;
  fadd := Rplus ;
  fsub := Rminus ;
  fmul := Rmult ;
  fdiv := Rdiv ;
  fneg := Ropp ;
  fabs := Rabs ;
  fgt := fun a b => Rltb b a ;
  flt := Rltb ;
  fge := fun a b => Rleb b a ;
  fle := Rleb ;
  feq := Reqb
|}.

#[export] Instance ExactLibm : Libm R := {|
  fsin := sin ;
  fcos := cos ;
  ftan := tan ;
  fasin := asin
|}.

(** ** Running the external *)

Section Runs.
Context {F : Type} {FO : FloatOps F} {LM : Libm F}.

(** Consecutive calls of [tape_perform] on the same object, one per
    block, with the outputs laid end to end. *)
Fixpoint tape_blocks (x : t_tape F) (blocks : list (list F))
    : t_tape F * list F :=
  match blocks with
  | [] => (x, [])
  | b :: bs =>
      let '(x1, o) := tape_perform x b in
      let '(x2, os) := tape_blocks x1 bs in
      (x2, o ++ os)
  end.

(** The first [count] blocks of [size] samples of a buffer. *)
Fixpoint split_blocks (size count : nat) (input : list F) : list (list F) :=
  match count with
  | O => []
  | S c => firstn size input :: split_blocks size c (skipn size input)
  end.

(** The coefficient slots of both biquads hold what the prologue
    derives from [x_sr]. *)
Definition has_coefs (sr : F) (b : biquad F) : Prop :=
  bq2 b = coef_a0 sr /\ bq3 b = coef_a1 sr /\ bq4 b = coef_a2 sr /\
  bq5 b = coef_b1 sr /\ bq6 b = coef_b2 sr.

Definition tuned (x : t_tape F) : Prop :=
  has_coefs (x_sr x) (biquadA x) /\ has_coefs (x_sr x) (biquadB x).

(** Which branch of [if (x->flip)] a sample takes. *)
Inductive phase := PhaseA | PhaseB.

Definition active (x : t_tape F) : phase :=
  if Z.eqb (flip x) 0 then PhaseB else PhaseA.


Definition other (p : phase) : phase :=
  match p with PhaseA => PhaseB | PhaseB => PhaseA end.

(** The roller, head bump and biquad of a phase. *)
Definition mid_of (p : phase) (x : t_tape F) : F :=
  match p with PhaseA => iirMidRollerA x | PhaseB => iirMidRollerB x end.
Definition hb_of (p : phase) (x : t_tape F) : F :=
  match p with PhaseA => iirHeadBumpA x | PhaseB => iirHeadBumpB x end.
Definition bq_of (p : phase) (x : t_tape F) : biquad F :=
  match p with PhaseA => biquadA x | PhaseB => biquadB x end.




(** The interval of the final clamp, as the C comparisons decide it. *)
Definition within_clip (o : F) : bool :=
  fge o (fneg (lit c_0_99)) && fle o (lit c_0_99).

(** The soft clipper alone, fed a sequence from a given memory: the
    final memory and the returned values. *)
Fixpoint adclip_run (lastSample : F) (input : list F) : F * list F :=
  match input with
  | [] => (lastSample, [])
  | s :: rest =>
      let '(o, last) := adclip s lastSample in
      let '(final, os) := adclip_run last rest in
      (final, o :: os)
  end.

(** What a run of the loop does to the two rollers and to [flip]: of
    lines 145-223 only lines 149, 155, 158, 178 and 194 touch them. *)
Fixpoint rollers_run (roll mA mB : F) (fl : Z) (input : list F)
    : F * F * Z :=
  match input with
  | [] => (mA, mB, fl)
  | s :: rest =>
      let g := fmul s (lit INPUT_GAIN) in
      if Z.eqb fl 0
      then rollers_run roll mA
             (fadd (fmul mB (fsub (lit c_1) roll)) (fmul g roll)) 1 rest
      else rollers_run roll
             (fadd (fmul mA (fsub (lit c_1) roll)) (fmul g roll)) mB 0 rest
  end.


End Runs.



(** The memory of the binary64 clipper after forty samples of 1.0. *)
Definition ones_limit : float :=
  Eval vm_compute in
    fst (adclip_run (FO := Binary64) 0%float (repeat 1%float 40)).

(** ** The coefficient formulas as the specification words them

    [scale = sampleRate / 44100]; [rollAmount = (1 - phi) / scale];
    [headBumpFreq = 0.12 / scale]; [biquadFreq = 0.0072 / scale],
    [Q = 0.0009], [K = tan(pi * biquadFreq)],
    [norm = 1 / (1 + K/Q + K^2)], [a0 = (K/Q) * norm], [a1 = 0],
    [a2 = -a0], [b1 = 2 (K^2 - 1) * norm], [b2 = (1 - K/Q + K^2) * norm].
    The constant [phi] is a parameter of these definitions. *)

Module Spec.
Section Formulas.
Context {F : Type} {FO : FloatOps F} {LM : Libm F}.
Local Open Scope tape_scope.
Variable phi : literal.

Definition scale (sampleRate : F) : F := sampleRate / lit c_44100.
Definition rollAmount (sampleRate : F) : F :=
  (lit c_1 - lit phi) / scale sampleRate.
Definition headBumpFreq (sampleRate : F) : F :=
  lit c_0_12 / scale sampleRate.
Definition biquadFreq (sampleRate : F) : F :=
  lit c_0_0072 / scale sampleRate.
Definition Q : F := lit c_0_0009.
Definition K (sampleRate : F) : F := ftan (M_PI * biquadFreq sampleRate).
Definition norm (sampleRate : F) : F :=
  lit c_1 / (lit c_1 + K sampleRate / Q + K sampleRate * K sampleRate).
Definition a0 (sampleRate : F) : F := (K sampleRate / Q) * norm sampleRate.
Definition a1 : F := lit c_0.
Definition a2 (sampleRate : F) : F := - a0 sampleRate.
Definition b1 (sampleRate : F) : F :=
  lit c_2 * (K sampleRate * K sampleRate - lit c_1) * norm sampleRate.
Definition b2 (sampleRate : F) : F :=
  (lit c_1 - K sampleRate / Q + K sampleRate * K sampleRate)
  * norm sampleRate.
End Formulas.

(** The value of [phi] printed in the specification. *)
Definition phi_printed : literal :=
  Literal (6180339887498948 # 10000000000000000) 0.6180339887498948%float.
End Spec.

(** ** Binary64 rounding: values, canonical numbers, constants *)

(** Exponents of binary64 products go down to 2 emin = -2148: values
    are compared as integers after scaling by 2^2200. *)
Definition dval (m e : Z) : Z := m * 2 ^ (e + 2200).

Definition canonical (m : positive) (e : Z) : Prop :=
  fexp prec emax (Zpos (digits2_pos m) + e) = e.

Definition inexact (mrs : shr_record) : bool := shr_r mrs || shr_s mrs.

(** [f] shifts a record right by [k] bits and tells whether bits were lost. *)
Definition shr_by (k : Z) (f : shr_record -> shr_record) : Prop :=
  forall mrs : shr_record, 0 <= shr_m mrs ->
    shr_m (f mrs) = shr_m mrs / 2 ^ k /\
    (inexact (f mrs) = true ->
     shr_m mrs mod 2 ^ k <> 0 \/ inexact mrs = true).

(** A rounded positive number is +0, positive or +infinity. *)
Definition nonneg (f : spec_float) : Prop :=
  match f with
  | S754_zero false | S754_infinity false | S754_finite false _ _ => True
  | _ => False
  end.

(** The constants of the blend of [adclip], as binary64 computes them:
    [0.99 * softness], [1.0 - softness], and a bound of the product of
    a number below 0.99 with the latter. *)
Definition SF99 : spec_float := Eval vm_compute in Prim2SF (b64 c_0_99).
Definition SFC1 : spec_float :=
  Eval vm_compute in Prim2SF (PrimFloat.mul (b64 c_0_99) (b64 c_golden)).
Definition SFC2 : spec_float :=
  Eval vm_compute in Prim2SF (PrimFloat.sub (b64 c_1) (b64 c_golden)).
Definition SFY : spec_float :=
  Eval vm_compute in Prim2SF 0x1.8338cc0cf3729p-2%float.

Abbreviation M99 := 0x1fae147ae147ae%positive.
Abbreviation MC1 := 0x13944e1a79ac19%positive.
Abbreviation MC2 := 0x18722191a02d60%positive.
Abbreviation MY := 0x18338cc0cf3729%positive.

Definition SFN99 : spec_float := S754_finite true M99 (-53).

Definition blend_c1 : float :=
  Eval vm_compute in PrimFloat.mul (b64 c_0_99) (b64 c_golden).
Definition blend_c2 : float :=
  Eval vm_compute in PrimFloat.sub (b64 c_1) (b64 c_golden).
Definition blend_hi (t : float) : float :=
  PrimFloat.add blend_c1 (PrimFloat.mul t blend_c2).
Definition blend_lo (t : float) : float :=
  PrimFloat.add (PrimFloat.opp blend_c1) (PrimFloat.mul t blend_c2).


(** The double clamp of lines 45-46. *)
Definition spiral_clamp (x : float) : float :=
  let c := b64 c_1_2533141373155 in
  let x1 := if PrimFloat.ltb c x then c else x in
  if PrimFloat.ltb x1 (PrimFloat.opp c) then PrimFloat.opp c else x1.

(** A <math.h> of identities, to instantiate statements that hold for
    every <math.h>. *)
Definition libm_identity : Libm float :=
  {| fsin := fun t => t ; fcos := fun t => t ;
     ftan := fun t => t ; fasin := fun t => t |}.

(** ** The memory of the host *)

Section Buffers.
Context {F : Type} {FO : FloatOps F} {LM : Libm F}.

(** The signal vectors of the host as cells of one memory; [in] and
    [out] (lines 117-118) are indices into it.  As in the rest of the
    model a cell holds a value of [FLOAT].  [*out = v] on a cell of the
    memory; outside the memory, where C leaves the behaviour undefined,
    a write is dropped and a read gives 0. *)
Fixpoint poke (i : nat) (v : F) (mem : list F) : list F :=
  match mem, i with
  | [], _ => []
  | _ :: t, O => v :: t
  | h :: t, S j => h :: poke j v t
  end.

(** The loop of lines 143-224 on the memory: each turn reads [*in++]
    (line 145), then writes [*out++] (line 223). *)
Fixpoint tape_loop_mem (roll hbf : F) (x : t_tape F) (mem : list F)
    (inp out n : nat) : t_tape F * list F :=
  match n with
  | O => (x, mem)
  | S k =>
      let '(x1, o) := tape_sample roll hbf x (nth inp mem (lit c_0)) in
      tape_loop_mem roll hbf x1 (poke out o mem) (S inp) (S out) k
  end.

(** [tape_perform] on the memory of the host. *)
Definition tape_perform_mem (x : t_tape F) (mem : list F) (inp out n : nat)
    : t_tape F * list F :=
  tape_loop_mem (RollAmount (x_sr x)) (HeadBumpFreq (x_sr x))
                (store_coefs x) mem inp out n.

(** Two objects that differ at most in the coefficient slots 2..6 of
    their biquads. *)
Definition same_but_coefs (x y : t_tape F) : Prop :=
  x_sr x = x_sr y /\
  iirMidRollerA x = iirMidRollerA y /\ iirMidRollerB x = iirMidRollerB y /\
  iirHeadBumpA x = iirHeadBumpA y /\ iirHeadBumpB x = iirHeadBumpB y /\
  bq0 (biquadA x) = bq0 (biquadA y) /\ bq1 (biquadA x) = bq1 (biquadA y) /\
  bq7 (biquadA x) = bq7 (biquadA y) /\ bq8 (biquadA x) = bq8 (biquadA y) /\
  bq0 (biquadB x) = bq0 (biquadB y) /\ bq1 (biquadB x) = bq1 (biquadB y) /\
  bq7 (biquadB x) = bq7 (biquadB y) /\ bq8 (biquadB x) = bq8 (biquadB y) /\
  lastSample x = lastSample y /\ flip x = flip y.

End Buffers.

(** ** Polarity and silence *)

Local Open Scope R_scope.

Definition negate_biquad (b : biquad R) : biquad R :=
  Biquad (bq0 b) (bq1 b) (bq2 b) (bq3 b) (bq4 b) (bq5 b) (bq6 b)
         (- bq7 b) (- bq8 b).

Definition negate (x : t_tape R) : t_tape R :=
  Tape (x_sr x) (- iirMidRollerA x) (- iirMidRollerB x)
       (- iirHeadBumpA x) (- iirHeadBumpB x)
       (negate_biquad (biquadA x)) (negate_biquad (biquadB x))
       (- lastSample x) (flip x).

(** No signal is left in the object: rollers, head bumps, the delay
    memory of both biquads and the memory of the clipper are zero. *)
Definition quiet (x : t_tape R) : Prop :=
  iirMidRollerA x = 0 /\ iirMidRollerB x = 0 /\
  iirHeadBumpA x = 0 /\ iirHeadBumpB x = 0 /\
  bq7 (biquadA x) = 0 /\ bq8 (biquadA x) = 0 /\
  bq7 (biquadB x) = 0 /\ bq8 (biquadB x) = 0 /\
  lastSample x = 0.

Local Close Scope R_scope.

(** * Properties *)

(** ** What the loop leaves alone, for every reading of [FLOAT] *)

Section Frame.
Context {F : Type} {FO : FloatOps F} {LM : Libm F}.

Lemma flip_step_frame (roll hbf : F) (x : t_tape F) (s : F) :
  let x1 := fst (flip_step roll hbf x s) in
  x_sr x1 = x_sr x /\ lastSample x1 = lastSample x /\
  flip x1 = (if Z.eqb (flip x) 0 then 1 else 0) /\
  (forall sr, has_coefs sr (biquadA x) -> has_coefs sr (biquadA x1)) /\
  (forall sr, has_coefs sr (biquadB x) -> has_coefs sr (biquadB x1)).
Proof.
  unfold flip_step, phase_update, has_coefs.
  destruct (Z.eqb (flip x) 0); cbn; repeat split; intros; tauto.
Qed.

Lemma tape_sample_frame (roll hbf : F) (x : t_tape F) (s : F) :
  let x1 := fst (tape_sample roll hbf x s) in
  x_sr x1 = x_sr x /\
  flip x1 = (if Z.eqb (flip x) 0 then 1 else 0) /\
  (forall sr, has_coefs sr (biquadA x) -> has_coefs sr (biquadA x1)) /\
  (forall sr, has_coefs sr (biquadB x) -> has_coefs sr (biquadB x1)).
Proof.
  pose proof (flip_step_frame roll hbf x (fmul s (lit INPUT_GAIN))) as H.
  unfold tape_sample, pre_clip, adclip.
  destruct (flip_step roll hbf x (fmul s (lit INPUT_GAIN))) as [x1 highs].
  cbn in *. tauto.
Qed.


(** Lines 197-214 spelled out on the result of the phase branch. *)
Lemma pre_clip_shape (roll hbf : F) (x : t_tape F) (s : F) :
  let g := fmul s (lit INPUT_GAIN) in
  let x1 := fst (flip_step roll hbf x g) in
  let sat := spiral_saturate (soften (snd (flip_step roll hbf x g)) g) in
  let sup := suppress_of sat in
  let x2 := fst (pre_clip roll hbf x s) in
  iirHeadBumpA x2 = restrain sup (iirHeadBumpA x1) /\
  iirHeadBumpB x2 = restrain sup (iirHeadBumpB x1) /\
  lastSample x2 = lastSample x /\
  snd (pre_clip roll hbf x s) =
    fadd sat (fmul (fadd (iirHeadBumpA x2) (iirHeadBumpB x2)) (lit HEAD_BUMP)).
Proof.
  cbv zeta. unfold pre_clip.
  destruct (flip_step_frame roll hbf x (fmul s (lit INPUT_GAIN)))
    as (_ & Hl & _).
  destruct (flip_step roll hbf x (fmul s (lit INPUT_GAIN))) as [x1 highs].
  cbn [fst snd iirHeadBumpA iirHeadBumpB lastSample] in *.
  repeat split; assumption || reflexivity.
Qed.

(** [adclip] and the clamp leave everything but [lastSample] as
    lines 145-214 left it. *)
Lemma tape_sample_keeps (roll hbf : F) (x : t_tape F) (s : F) :
  let x2 := fst (pre_clip roll hbf x s) in
  let x' := fst (tape_sample roll hbf x s) in
  iirHeadBumpA x' = iirHeadBumpA x2 /\ iirHeadBumpB x' = iirHeadBumpB x2 /\
  iirMidRollerA x' = iirMidRollerA x2 /\ iirMidRollerB x' = iirMidRollerB x2 /\
  flip x' = flip x2.
Proof.
  cbv zeta. unfold tape_sample.
  destruct (pre_clip roll hbf x s) as [x2 v]. cbn [fst snd].
  destruct (adclip v (lastSample x2)) as [v' l]. cbn. tauto.
Qed.

Lemma tape_sample_tuned (roll hbf : F) (x : t_tape F) (s : F) :
  tuned x -> tuned (fst (tape_sample roll hbf x s)).
Proof.
  destruct (tape_sample_frame roll hbf x s) as (Hsr & _ & HA & HB).
  unfold tuned. rewrite Hsr. intros [? ?]. split; auto.
Qed.

Lemma tape_loop_frame (roll hbf : F) (input : list F) :
  forall x, x_sr (fst (tape_loop roll hbf x input)) = x_sr x /\
            (tuned x -> tuned (fst (tape_loop roll hbf x input))).
Proof.
  induction input as [|s rest IH]; intros x; cbn.
  - tauto.
  - destruct (tape_sample roll hbf x s) as [x1 o] eqn:E1.
    destruct (tape_loop roll hbf x1 rest) as [x2 os] eqn:E2.
    cbn. specialize (IH x1). rewrite E2 in IH. cbn in IH.
    destruct (tape_sample_frame roll hbf x s) as (Hsr & _).
    pose proof (tape_sample_tuned roll hbf x s) as Ht.
    rewrite E1 in Hsr, Ht. cbn in Hsr, Ht.
    destruct IH as [IH1 IH2]. split; [congruence | auto].
Qed.

Lemma store_coefs_tuned (x : t_tape F) : tuned (store_coefs x).
Proof. unfold tuned, store_coefs, set_coefs, has_coefs. cbn. tauto. Qed.

Lemma store_coefs_id (x : t_tape F) : tuned x -> store_coefs x = x.
Proof.
  destruct x as [sr mA mB hA hB [a0 a1 a2 a3 a4 a5 a6 a7 a8]
                 [b0 b1 b2 b3 b4 b5 b6 b7 b8] l f].
  unfold tuned, has_coefs, store_coefs, set_coefs. cbn.
  intros [(-> & -> & -> & -> & ->) (-> & -> & -> & -> & ->)]. reflexivity.
Qed.

Lemma tape_loop_app (roll hbf : F) (xs ys : list F) :
  forall x,
    tape_loop roll hbf x (xs ++ ys) =
    (fst (tape_loop roll hbf (fst (tape_loop roll hbf x xs)) ys),
     snd (tape_loop roll hbf x xs) ++
     snd (tape_loop roll hbf (fst (tape_loop roll hbf x xs)) ys)).
Proof.
  induction xs as [|s rest IH]; intros x; cbn.
  - destruct (tape_loop roll hbf x ys); reflexivity.
  - destruct (tape_sample roll hbf x s) as [x1 o].
    rewrite IH.
    destruct (tape_loop roll hbf x1 rest) as [x2 os]. reflexivity.
Qed.

Lemma tape_perform_sr (x : t_tape F) (input : list F) :
  x_sr (fst (tape_perform x input)) = x_sr x.
Proof.
  unfold tape_perform.
  destruct (tape_loop_frame (RollAmount (x_sr x)) (HeadBumpFreq (x_sr x))
              input (store_coefs x)) as [H _].
  exact H.
Qed.

Lemma tape_perform_tuned (x : t_tape F) (input : list F) :
  tuned (fst (tape_perform x input)).
Proof.
  unfold tape_perform.
  destruct (tape_loop_frame (RollAmount (x_sr x)) (HeadBumpFreq (x_sr x))
              input (store_coefs x)) as [_ H].
  apply H, store_coefs_tuned.
Qed.

(** On an object whose coefficient slots are up to date the prologue
    changes nothing. *)
Lemma tape_perform_on_tuned (x : t_tape F) (input : list F) :
  tuned x ->
  tape_perform x input =
  tape_loop (RollAmount (x_sr x)) (HeadBumpFreq (x_sr x)) x input.
Proof. intros Ht. unfold tape_perform. now rewrite (store_coefs_id _ Ht). Qed.

(** Two consecutive calls are one call on the joined buffer. *)
Lemma tape_perform_app (x : t_tape F) (xs ys : list F) :
  tape_perform x (xs ++ ys) =
  (fst (tape_perform (fst (tape_perform x xs)) ys),
   snd (tape_perform x xs) ++ snd (tape_perform (fst (tape_perform x xs)) ys)).
Proof.
  rewrite (tape_perform_on_tuned (fst (tape_perform x xs)))
    by apply tape_perform_tuned.
  rewrite tape_perform_sr.
  unfold tape_perform. apply tape_loop_app.
Qed.

Lemma tape_blocks_concat (blocks : list (list F)) :
  forall x, blocks <> [] ->
    tape_blocks x blocks = tape_perform x (concat blocks).
Proof.
  induction blocks as [|b bs IH]; intros x Hne; [congruence|].
  cbn [tape_blocks concat]. rewrite tape_perform_app.
  destruct (tape_perform x b) as [x1 o] eqn:E1. cbn [fst snd].
  destruct bs as [|b' bs'].
  - cbn. rewrite !app_nil_r.
    assert (Ht : tuned x1).
    { pose proof (tape_perform_tuned x b) as H. rewrite E1 in H. exact H. }
    unfold tape_perform. cbn. rewrite (store_coefs_id _ Ht). reflexivity.
  - rewrite IH by congruence.
    destruct (tape_perform x1 (concat (b' :: bs'))); reflexivity.
Qed.

Lemma split_blocks_spec (size count : nat) :
  forall input : list F, length input = (count * size)%nat ->
    length (split_blocks size count input) = count /\
    Forall (fun b => length b = size) (split_blocks size count input) /\
    concat (split_blocks size count input) = input.
Proof.
  induction count as [|c IH]; intros input Hlen; cbn in *.
  - apply length_zero_iff_nil in Hlen. subst. repeat split. constructor.
  - destruct (IH (skipn size input)) as (H1 & H2 & H3).
    { rewrite length_skipn. lia. }
    repeat split.
    + now rewrite H1.
    + constructor; [rewrite length_firstn; lia | exact H2].
    + rewrite H3. apply firstn_skipn.
Qed.

End Frame.

(** ** Block-size invariance *)

(** C2: a buffer of 1000 samples processed by one call of [tape_perform]
    gives the same output samples, and leaves the same object, as ten
    consecutive calls on its ten blocks of 100 samples, whatever the
    object and its sample rate were before. *)
Theorem block_size_invariance {F : Type} {FO : FloatOps F} {LM : Libm F}
    (x : t_tape F) (input : list F) :
  length input = 1000%nat ->
  length (split_blocks 100 10 input) = 10%nat /\
  Forall (fun b => length b = 100%nat) (split_blocks 100 10 input) /\
  concat (split_blocks 100 10 input) = input /\
  tape_blocks x (split_blocks 100 10 input) = tape_perform x input.
Proof.
  intros Hlen.
  destruct (split_blocks_spec 100 10 input Hlen) as (H1 & H2 & H3).
  repeat split; try assumption.
  rewrite tape_blocks_concat.
  - now rewrite H3.
  - intros Hnil. rewrite Hnil in H1. discriminate.
Qed.

Lemma block_size_invariance_witness :
  tape_blocks (tape_dsp 44100%R tape_new)
              (split_blocks 100 10 (repeat 1%R 1000)) =
  tape_perform (tape_dsp 44100%R tape_new) (repeat 1%R 1000).
Proof.
  apply (block_size_invariance (tape_dsp 44100%R tape_new) (repeat 1%R 1000)).
  reflexivity.
Defined.

(** ** Phase alternation *)

Section Alternation.
Context {F : Type} {FO : FloatOps F} {LM : Libm F}.


Lemma active_next (roll hbf : F) (x : t_tape F) (s : F) :
  active (fst (tape_sample roll hbf x s)) = other (active x).
Proof.
  destruct (tape_sample_frame roll hbf x s) as (_ & Hf & _).
  unfold active. rewrite Hf. destruct (Z.eqb (flip x) 0); reflexivity.
Qed.



(** What one sample does to each phase. *)
Lemma tape_sample_effect (roll hbf : F) (x : t_tape F) (s : F) :
  let p := active x in
  let g := fmul s (lit INPUT_GAIN) in
  let upd := phase_update roll hbf (mid_of p x) (hb_of p x) (bq_of p x) g in
  let sup := suppress_of (spiral_saturate (soften (snd upd) g)) in
  let x' := fst (tape_sample roll hbf x s) in
  mid_of p x' = fst (fst (fst upd)) /\
  bq_of p x' = snd (fst upd) /\
  hb_of p x' = restrain sup (snd (fst (fst upd))) /\
  mid_of (other p) x' = mid_of (other p) x /\
  bq_of (other p) x' = bq_of (other p) x /\
  hb_of (other p) x' = restrain sup (hb_of (other p) x) /\
  active x' = other p.
Proof.
  cbv zeta. rewrite active_next.
  unfold tape_sample, pre_clip, flip_step, adclip, active.
  destruct (Z.eqb (flip x) 0); cbn; repeat split.
Qed.

Lemma tape_loop_rollers (roll hbf : F) (input : list F) :
  forall x : t_tape F,
    let x' := fst (tape_loop roll hbf x input) in
    let r := rollers_run roll (iirMidRollerA x) (iirMidRollerB x) (flip x)
                         input in
    iirMidRollerA x' = fst (fst r) /\ iirMidRollerB x' = snd (fst r) /\
    flip x' = snd r.
Proof.
  induction input as [|s rest IH]; intros x; cbn [tape_loop rollers_run].
  - cbn. repeat split.
  - destruct (tape_sample_effect roll hbf x s) as (Hm & _ & _ & Ho & _).
    destruct (tape_sample_frame roll hbf x s) as (_ & Hf & _).
    destruct (tape_sample roll hbf x s) as [x1 o]. cbn [fst] in *.
    specialize (IH x1). cbv zeta in IH.
    destruct (tape_loop roll hbf x1 rest) as [x2 os]. cbn [fst] in *.
    cbv zeta. unfold active, phase_update in *.
    destruct (Z.eqb (flip x) 0); cbn [mid_of other fst snd] in *;
      rewrite <- Hm, <- Ho, <- Hf; exact IH.
Qed.

Lemma tape_perform_rollers (x : t_tape F) (input : list F) :
  let x' := fst (tape_perform x input) in
  let r := rollers_run (RollAmount (x_sr x)) (iirMidRollerA x)
                       (iirMidRollerB x) (flip x) input in
  iirMidRollerA x' = fst (fst r) /\ iirMidRollerB x' = snd (fst r) /\
  flip x' = snd r.
Proof.
  exact (tape_loop_rollers (RollAmount (x_sr x)) (HeadBumpFreq (x_sr x))
           input (store_coefs x)).
Qed.

End Alternation.


(** ** Coefficients *)

(** C5, as amended: at each call the roll-off amount and head-bump
    frequency used by the loop, and the coefficients left in slots 2..6
    of both biquads, are the formulas of the specification at the sample
    rate of the object, with [phi] the literal of the source,
    0.618033988749894848204586; the rest of the object and the input
    play no part in them. *)
Theorem coefficients_follow_formulas {F : Type} {FO : FloatOps F}
    {LM : Libm F} (x : t_tape F) (input : list F) :
  let sr := x_sr x in
  let x' := fst (tape_perform x input) in
  tape_perform x input =
    tape_loop (Spec.rollAmount c_golden sr) (Spec.headBumpFreq sr)
              (store_coefs x) input /\
  (forall b, b = biquadA x' \/ b = biquadB x' ->
     bq2 b = Spec.a0 sr /\ bq3 b = Spec.a1 /\ bq4 b = Spec.a2 sr /\
     bq5 b = Spec.b1 sr /\ bq6 b = Spec.b2 sr).
Proof.
  cbv zeta. split; [reflexivity|].
  pose proof (tape_perform_tuned x input) as [HA HB].
  rewrite tape_perform_sr in HA, HB.
  intros b [-> | ->]; [exact HA | exact HB].
Qed.

(** C5, as stated, fails: with the 16-digit [phi] printed in the
    specification the roll-off amount at 44100 Hz is not the one the
    code computes, in binary64 and in exact arithmetic alike. *)
Lemma printed_phi_differs :
  RollAmount (FO := Binary64) 44100%float <>
    Spec.rollAmount (FO := Binary64) Spec.phi_printed 44100%float /\
  RollAmount (FO := Exact) 44100%R <>
    Spec.rollAmount (FO := Exact) Spec.phi_printed 44100%R.
Proof.
  split.
  - intros H.
    apply (f_equal (fun v => PrimFloat.eqb v
             (RollAmount (FO := Binary64) 44100%float))) in H.
    vm_compute in H. discriminate.
  - unfold RollAmount, overallscale, Spec.rollAmount, Spec.scale.
    cbn. unfold Q2R. cbn. lra.
Qed.

(** ** The final clamp *)


(** *** Binary64: comparisons and NaN *)

Lemma SFcompare_antisym (a b : spec_float) :
  SFcompare a b = option_map CompOpp (SFcompare b a).
Proof.
  destruct a as [sa|sa| |sa ma ea], b as [sb|sb| |sb mb eb]; cbn;
    try reflexivity;
    try (destruct sa; reflexivity); try (destruct sb; reflexivity);
    try (destruct sa, sb; reflexivity).
  destruct sa, sb; cbn; try reflexivity;
    rewrite (Z.compare_antisym ea eb);
    destruct (Z.compare ea eb); cbn; try reflexivity;
    rewrite (Pos.compare_cont_antisym mb ma Eq); reflexivity.
Qed.

Lemma is_nan_spec (x : float) :
  is_nan x = true <-> Prim2SF x = S754_nan.
Proof.
  unfold is_nan. rewrite eqb_spec. unfold SFeqb.
  destruct (Prim2SF x) as [s|s| |s m e]; cbn.
  - split; discriminate.
  - destruct s; split; discriminate.
  - split; reflexivity.
  - destruct s; rewrite Z.compare_refl, Pos.compare_cont_refl;
      split; discriminate.
Qed.

(** For numbers, [not (y < x)] is [x <= y]. *)
Lemma not_ltb_leb (x y : float) :
  is_nan x = false -> is_nan y = false ->
  PrimFloat.ltb y x = false -> PrimFloat.leb x y = true.
Proof.
  intros Hx Hy. rewrite ltb_spec, leb_spec. unfold SFltb, SFleb.
  rewrite (SFcompare_antisym (Prim2SF x) (Prim2SF y)).
  destruct (SFcompare (Prim2SF y) (Prim2SF x)) as [[| |]|] eqn:E; cbn;
    try reflexivity; try discriminate.
  exfalso.
  assert (Nx : Prim2SF x <> S754_nan).
  { intros C. apply is_nan_spec in C. congruence. }
  assert (Ny : Prim2SF y <> S754_nan).
  { intros C. apply is_nan_spec in C. congruence. }
  destruct (Prim2SF x) as [s|s| |s m e], (Prim2SF y) as [s'|s'| |s' m' e'];
    cbn in E; congruence.
Qed.

Lemma hardclip_binary64 (v : float) :
  is_nan (hardclip v) = true \/ within_clip (hardclip v) = true.
Proof.
  unfold hardclip, within_clip. cbn [fgt flt fge fle fneg lit Binary64].
  destruct (PrimFloat.ltb (b64 c_0_99) v) eqn:E1.
  - right. vm_compute. reflexivity.
  - destruct (PrimFloat.ltb v (- b64 c_0_99)) eqn:E2.
    + right. vm_compute. reflexivity.
    + destruct (is_nan v) eqn:N; [left; reflexivity | right].
      apply andb_true_intro. split; apply not_ltb_leb; auto.
Qed.

Lemma add_nan_l (y : float) : PrimFloat.add nan y = nan.
Proof.
  apply Prim2SF_inj. rewrite add_spec.
  change (Prim2SF nan) with S754_nan. reflexivity.
Qed.



Lemma mul_nan_l (y : float) : PrimFloat.mul nan y = nan.
Proof.
  apply Prim2SF_inj. rewrite mul_spec.
  change (Prim2SF nan) with S754_nan. reflexivity.
Qed.

Section NaN.
Context {LM : Libm float}.


Lemma soften_nan (g : float) : soften nan g = g.
Proof. unfold soften. lazy. reflexivity. Qed.




End NaN.

(** *** Exact arithmetic: reading the C tests as real comparisons *)

Ltac exact_simpl :=
  cbn [lit M_PI fadd fsub fmul fdiv fneg fabs fgt flt fge fle feq Exact
       fsin fcos ftan fasin ExactLibm];
  cbn [dec c_0 c_1 c_2 c_44100 c_0_99 c_0_05 c_0_12 c_0_0072 c_0_0009
       c_0_00013 c_1_57079633 c_1_2533141373155 c_golden
       INPUT_GAIN HEAD_BUMP];
  unfold Q2R; cbn [Qnum Qden].

Ltac no_dec t :=
  lazymatch t with
  | context [Rlt_dec _ _] => fail
  | context [Rle_dec _ _] => fail
  | context [Req_dec_T _ _] => fail
  | _ => idtac
  end.

(** Case analysis on the tests of a goal, innermost first. *)
Ltac split_cmp :=
  unfold Rltb, Rleb, Reqb;
  repeat (match goal with
          | |- context [Rlt_dec ?a ?b] =>
              no_dec a; no_dec b; destruct (Rlt_dec a b)
          | |- context [Rle_dec ?a ?b] =>
              no_dec a; no_dec b; destruct (Rle_dec a b)
          | |- context [Req_dec_T ?a ?b] =>
              no_dec a; no_dec b; destruct (Req_dec_T a b)
          end; cbv beta iota).

Ltac split_prune :=
  unfold Rltb, Rleb, Reqb;
  repeat (match goal with
          | |- context [Rlt_dec ?a ?b] =>
              no_dec a; no_dec b; destruct (Rlt_dec a b)
          | |- context [Rle_dec ?a ?b] =>
              no_dec a; no_dec b; destruct (Rle_dec a b)
          | |- context [Req_dec_T ?a ?b] =>
              no_dec a; no_dec b; destruct (Req_dec_T a b)
          end; cbv beta iota; try (exfalso; lra)).

Local Open Scope R_scope.




(** ** The soft clipper *)

(** [adclip] returns what it stores, in every reading of [FLOAT]. *)
Lemma adclip_returns_memory {F : Type} {FO : FloatOps F} (v l : F) :
  fst (adclip v l) = snd (adclip v l).
Proof. reflexivity. Qed.

Lemma adclip_run_app {F : Type} {FO : FloatOps F} (xs ys : list F) :
  forall l : F,
    fst (adclip_run l (xs ++ ys)) =
    fst (adclip_run (fst (adclip_run l xs)) ys).
Proof.
  induction xs as [|s rest IH]; intros l; cbn [app adclip_run].
  - reflexivity.
  - destruct (adclip s l) as [o l1]. specialize (IH l1).
    destruct (adclip_run l1 (rest ++ ys)), (adclip_run l1 rest).
    exact IH.
Qed.

Lemma adclip_exact (v l : R) :
  -0.99 <= l <= 0.99 -> -0.99 <= fst (adclip v l) <= 0.99.
Proof.
  intros H. unfold adclip. exact_simpl. cbn [fst]. split_cmp; lra.
Qed.

Lemma adclip_run_exact (input : list R) :
  forall l, -0.99 <= l <= 0.99 ->
    -0.99 <= fst (adclip_run l input) <= 0.99 /\
    Forall (fun o => -0.99 <= o <= 0.99 /\ hardclip o = o)
           (snd (adclip_run l input)).
Proof.
  induction input as [|s rest IH]; intros l Hl; cbn [adclip_run].
  - cbn. split; [exact Hl | constructor].
  - pose proof (adclip_exact s l Hl) as Ho.
    pose proof (adclip_returns_memory s l) as Hm.
    destruct (adclip s l) as [o l1]. cbn [fst snd] in *. subst l1.
    destruct (IH o Ho) as [I1 I2].
    destruct (adclip_run o rest) as [final os]. cbn [fst snd] in *.
    split; [exact I1|]. constructor; [|exact I2]. split; [exact Ho|].
    clear - Ho. unfold hardclip. exact_simpl. split_cmp; lra.
Qed.

(** Fed 1.0 with a memory below 0.99, the clipper blends the two. *)
Lemma adclip_one_exact (l : R) :
  0 <= l < 0.99 ->
  fst (adclip 1 l) = 0.99 * lit c_golden + l * (1 - lit c_golden).
Proof.
  intros H. unfold adclip. exact_simpl. cbn [fst]. split_cmp; lra.
Qed.

Lemma golden_exact : 0.618 < lit (F := R) c_golden < 0.619.
Proof. exact_simpl. lra. Qed.

Lemma adclip_run_single {F : Type} {FO : FloatOps F} (s l : F) :
  fst (adclip_run l [s]) = fst (adclip s l).
Proof. reflexivity. Qed.

Lemma adclip_ones_exact (n : nat) :
  fst (adclip_run 0 (repeat 1 n)) = 0.99 * (1 - (1 - lit c_golden) ^ n).
Proof.
  pose proof golden_exact as G.
  induction n as [|n IH].
  - cbn [repeat adclip_run fst pow]. lra.
  - replace (S n) with (n + 1)%nat by lia.
    rewrite repeat_app, adclip_run_app, IH.
    change (repeat 1 1) with [1]. rewrite adclip_run_single.
    assert (P : 0 < (1 - lit c_golden) ^ n <= 1).
    { split; [apply pow_lt; lra|].
      apply Rle_trans with (1 ^ n); [apply pow_incr; lra | rewrite pow1; lra]. }
    rewrite adclip_one_exact by nra.
    rewrite pow_add, pow_1. nra.
Qed.

(** In binary64 the memory fed 1.0 reaches [ones_limit], the double
    just below 0.99, and stays there. *)
Lemma adclip_ones_limit (m : nat) :
  fst (adclip_run (FO := Binary64) ones_limit (repeat 1%float m)) = ones_limit.
Proof.
  induction m as [|m IH]; [reflexivity|].
  replace (S m) with (1 + m)%nat by lia.
  rewrite repeat_app, adclip_run_app.
  replace (fst (adclip_run ones_limit (repeat 1%float 1))) with ones_limit
    by (vm_compute; reflexivity).
  exact IH.
Qed.

Lemma adclip_ones_binary64 (n : nat) :
  PrimFloat.ltb (fst (adclip_run (FO := Binary64) 0%float (repeat 1%float n)))
                (b64 c_0_99) = true.
Proof.
  destruct (Nat.lt_ge_cases n 40) as [Hlt | Hge].
  - assert (A : forallb (fun k => PrimFloat.ltb
                  (fst (adclip_run (FO := Binary64) 0%float (repeat 1%float k)))
                  (b64 c_0_99)) (seq 0 40) = true)
      by (vm_compute; reflexivity).
    rewrite forallb_forall in A. apply A, in_seq. lia.
  - replace n with (40 + (n - 40))%nat by lia.
    rewrite repeat_app, adclip_run_app.
    change (fst (adclip_run (FO := Binary64) 0%float (repeat 1%float 40)))
      with ones_limit.
    rewrite adclip_ones_limit. vm_compute. reflexivity.
Qed.

(** C3: from memory 0 every value [adclip] returns lies strictly
    between -1 and 1, for every input sequence (exact arithmetic).  Fed
    the constant 1.0 the memory after [n] samples is
    0.99 (1 - (1 - phi)^n): it stays below 0.99 and comes as close to it
    as wanted; in binary64 too it is below 0.99 after every sample. *)
Theorem adclip_bounded :
  (forall input : list R,
     Forall (fun o => -1 < o < 1) (snd (adclip_run 0 input))) /\
  (forall n : nat,
     fst (adclip_run 0 (repeat 1 n)) = 0.99 * (1 - (1 - lit c_golden) ^ n) /\
     fst (adclip_run 0 (repeat 1 n)) < 0.99) /\
  (forall eps : R, 0 < eps ->
     exists N : nat, forall n : nat, (N <= n)%nat ->
       0.99 - fst (adclip_run 0 (repeat 1 n)) < eps) /\
  (forall n : nat,
     PrimFloat.ltb
       (fst (adclip_run (FO := Binary64) 0%float (repeat 1%float n)))
       (b64 c_0_99) = true).
Proof.
  pose proof golden_exact as G.
  assert (P : forall n, 0 < (1 - lit (F := R) c_golden) ^ n)
    by (intros n; apply pow_lt; lra).
  split; [|split; [|split]].
  - intros input. destruct (adclip_run_exact input 0 ltac:(lra)) as [_ H].
    eapply Forall_impl; [|exact H]. cbv beta. intros o [Ho _]. lra.
  - intros n. rewrite adclip_ones_exact. specialize (P n). split; lra.
  - intros eps Heps.
    destruct (pow_lt_1_zero (1 - lit c_golden)
                ltac:(rewrite Rabs_pos_eq; lra) eps Heps) as [N HN].
    exists N. intros n Hn. rewrite adclip_ones_exact.
    specialize (HN n Hn). rewrite Rabs_pos_eq in HN by (left; apply P).
    lra.
  - apply adclip_ones_binary64.
Qed.

(** ** The spiral saturator and the decay guard, in exact arithmetic *)

Lemma Rabs_sin_le (t : R) : Rabs (sin t) <= Rabs t.
Proof.
  assert (P : forall u, 0 <= u -> Rabs (sin u) <= u).
  { intros u Hu. apply Rabs_le.
    destruct (Req_dec u 0) as [-> | Hne]; [rewrite sin_0; lra|].
    pose proof (sin_lt_x u ltac:(lra)). pose proof (SIN_bound u).
    split; [|lra].
    destruct (Rle_or_lt u 1) as [H1 | H1]; [|lra].
    pose proof PI2_1. pose proof (sin_ge_0 u ltac:(lra) ltac:(lra)). lra. }
  destruct (Rle_or_lt 0 t) as [Ht | Ht].
  - rewrite (Rabs_pos_eq t) by lra. now apply P.
  - rewrite (Rabs_left t) by lra.
    replace (sin t) with (- sin (- t)) by (rewrite sin_neg; ring).
    rewrite Rabs_Ropp. apply P. lra.
Qed.


Lemma spiral_saturate_odd (x : R) :
  spiral_saturate (- x) = - spiral_saturate x.
Proof.
  unfold spiral_saturate. exact_simpl.
  split_cmp; try lra;
    repeat match goal with
    | H : context [Rabs (- _)] |- _ => rewrite Rabs_Ropp in H
    end;
    rewrite ?Rabs_Ropp, ?Ropp_involutive in *; try lra;
    rewrite ?Ropp_mult_distr_l_reverse, ?sin_neg; unfold Rdiv; ring.
Qed.

(** The shaping function proper: [sin(y |y|) / |y|] is at most [|y|]
    and at most 1 in magnitude. *)
Lemma spiral_core_bound (y : R) :
  Rabs y <> 0 ->
  Rabs (sin (y * Rabs y) / Rabs y) <= Rabs y /\
  Rabs (sin (y * Rabs y) / Rabs y) <= 1.
Proof.
  intros Hy. pose proof (Rabs_pos y) as Hp.
  assert (Hpos : 0 < Rabs y) by lra.
  unfold Rdiv. rewrite Rabs_mult, (Rabs_inv (Rabs y)), Rabs_Rabsolu.
  pose proof (Rabs_sin_le (y * Rabs y)) as H1.
  rewrite Rabs_mult, Rabs_Rabsolu in H1.
  pose proof (SIN_bound (y * Rabs y)) as H2.
  assert (H3 : Rabs (sin (y * Rabs y)) <= 1) by (apply Rabs_le; lra).
  assert (Hi : 0 < / Rabs y) by (apply Rinv_0_lt_compat; lra).
  assert (E : Rabs y * / Rabs y = 1) by (apply Rinv_r; lra).
  split.
  - apply Rle_trans with (Rabs y * Rabs y * / Rabs y).
    + apply Rmult_le_compat_r; lra.
    + rewrite Rmult_assoc, E. lra.
  - destruct (Rle_or_lt 1 (Rabs y)) as [G | G].
    + apply Rle_trans with (1 * / Rabs y).
      * apply Rmult_le_compat_r; lra.
      * rewrite <- E. apply Rmult_le_compat_r; lra.
    + apply Rle_trans with (Rabs y * Rabs y * / Rabs y).
      * apply Rmult_le_compat_r; lra.
      * rewrite Rmult_assoc, E. lra.
Qed.

Lemma spiral_saturate_bound (x : R) :
  Rabs (spiral_saturate x) <= Rabs x /\ Rabs (spiral_saturate x) <= 1.
Proof.
  pose proof (Rabs_pos x) as Hx.
  unfold spiral_saturate. exact_simpl.
  replace (0 * / 1) with 0 by lra.
  split_cmp;
    try (rewrite Rabs_R0; lra);
    match goal with
    | |- context [sin (?y * Rabs ?y)] =>
        destruct (spiral_core_bound y ltac:(assumption)) as [B1 B2];
        assert (By : Rabs y <= Rabs x)
          by (unfold Rabs; repeat destruct Rcase_abs; lra)
    end; split; lra.
Qed.

Lemma restrain_exact (sup h : R) :
  0 <= sup ->
  (sup < h /\ restrain sup h = h - sup) \/
  (h < - sup /\ restrain sup h = h + sup) \/
  (- sup <= h <= sup /\ restrain sup h = h).
Proof.
  intros Hs. unfold restrain. exact_simpl. split_cmp; lra.
Qed.


Lemma suppress_exact (w : R) :
  0 <= suppress_of (spiral_saturate w) <= 0.00013.
Proof.
  destruct (spiral_saturate_bound w) as [_ B].
  pose proof (Rabs_pos (spiral_saturate w)).
  unfold suppress_of. exact_simpl. nra.
Qed.












(** C8: the spiral saturator is odd, [spiral_saturate (-x)] is
    [- spiral_saturate x] for every real [x], in particular on
    [-1.2533141373155, 1.2533141373155] without 0; it is 0 at 0 in exact
    arithmetic and in binary64, and continuous at 0, where its value is
    at most [|x|] in magnitude. *)
Theorem spiral_saturate_is_odd :
  (forall x : R, spiral_saturate (- x) = - spiral_saturate x) /\
  spiral_saturate 0 = 0 /\
  (forall LM : Libm float, spiral_saturate 0%float = 0%float) /\
  (forall x : R, Rabs (spiral_saturate x) <= Rabs x) /\
  continuity_pt spiral_saturate 0.
Proof.
  assert (Z0 : spiral_saturate 0 = 0).
  { pose proof (spiral_saturate_bound 0) as [B _].
    rewrite Rabs_R0 in B. pose proof (Rabs_pos (spiral_saturate 0)).
    destruct (Req_dec (spiral_saturate 0) 0) as [E | E]; [exact E|].
    apply Rabs_pos_lt in E. lra. }
  split; [exact spiral_saturate_odd|].
  split; [exact Z0|].
  split; [intros LM; vm_compute; reflexivity|].
  split; [intros x; apply spiral_saturate_bound|].
  unfold continuity_pt, continue_in, limit1_in, limit_in.
  intros eps Heps. exists eps. split; [exact Heps|].
  intros x [_ Hd]. cbn [dist R_met] in *. unfold R_dist in *.
  rewrite Z0, Rminus_0_r. rewrite Rminus_0_r in Hd.
  destruct (spiral_saturate_bound x) as [B _]. lra.
Qed.

(** C7: at every sample, whichever phase is active, the guard takes
    [suppress = (1 - |saturated|) * 0.00013] from the output of the
    spiral saturator, which is never negative, and passes both head-bump
    states through [restrain]: a state above [suppress] goes down by
    [suppress], one below [-suppress] goes up by [suppress], any other
    is kept; so a state moves toward zero by at most [suppress] and never
    changes sign (exact arithmetic). *)
Theorem decay_guard (roll hbf : R) (x : t_tape R) (s : R) :
  let g := s * lit INPUT_GAIN in
  let x1 := fst (flip_step roll hbf x g) in
  let sat := spiral_saturate (soften (snd (flip_step roll hbf x g)) g) in
  let sup := suppress_of sat in
  let x' := fst (tape_sample roll hbf x s) in
  sup = (1 - Rabs sat) * 0.00013 /\
  0 <= sup <= 0.00013 /\
  iirHeadBumpA x' = restrain sup (iirHeadBumpA x1) /\
  iirHeadBumpB x' = restrain sup (iirHeadBumpB x1) /\
  (forall h : R,
     ((sup < h /\ restrain sup h = h - sup) \/
      (h < - sup /\ restrain sup h = h + sup) \/
      (- sup <= h <= sup /\ restrain sup h = h)) /\
     Rabs (restrain sup h) <= Rabs h /\
     Rabs (h - restrain sup h) <= sup /\
     0 <= h * restrain sup h).
Proof.
  cbv zeta.
  destruct (tape_sample_keeps roll hbf x s) as (EA & EB & _).
  destruct (pre_clip_shape roll hbf x s) as (SA & SB & _).
  pose proof (suppress_exact
    (soften (snd (flip_step roll hbf x (s * lit INPUT_GAIN)))
            (s * lit INPUT_GAIN))) as Hs.
  split; [unfold suppress_of; exact_simpl; lra|].
  split; [exact Hs|].
  split; [rewrite EA; exact SA|].
  split; [rewrite EB; exact SB|].
  intros h.
  pose proof (restrain_exact _ h (proj1 Hs)) as C.
  split; [exact C|].
  destruct C as [[? ->] | [[? ->] | [? ->]]];
    repeat split; try (unfold Rabs; repeat destruct Rcase_abs; lra); nra.
Qed.





(** ** Silence *)









(** * Further properties of the code *)

Local Close Scope R_scope.

(** ** Rounding to nearest in binary64 *)

Lemma digits2_pos_bounds (m : positive) :
  2 ^ (Zpos (digits2_pos m) - 1) <= Zpos m < 2 ^ Zpos (digits2_pos m).
Proof.
  induction m as [m IH|m IH|]; cbn [digits2_pos].
  - rewrite Pos2Z.inj_succ.
    replace (Z.succ (Zpos (digits2_pos m)) - 1) with (Zpos (digits2_pos m)) by lia.
    rewrite Z.pow_succ_r by lia.
    assert (E : 2 ^ Zpos (digits2_pos m) = 2 * 2 ^ (Zpos (digits2_pos m) - 1)).
    { rewrite <- Z.pow_succ_r by lia. f_equal. lia. }
    lia.
  - rewrite Pos2Z.inj_succ.
    replace (Z.succ (Zpos (digits2_pos m)) - 1) with (Zpos (digits2_pos m)) by lia.
    rewrite Z.pow_succ_r by lia.
    assert (E : 2 ^ Zpos (digits2_pos m) = 2 * 2 ^ (Zpos (digits2_pos m) - 1)).
    { rewrite <- Z.pow_succ_r by lia. f_equal. lia. }
    lia.
  - cbn. lia.
Qed.

Lemma fexp_spec (d : Z) : fexp prec emax d = Z.max (d - 53) (-1074).
Proof. reflexivity. Qed.

Lemma pow2_pos (k : Z) : 0 <= k -> 0 < 2 ^ k.
Proof. intros. apply Z.pow_pos_nonneg; lia. Qed.

Lemma pow2_le (a b : Z) : 0 <= a <= b -> 2 ^ a <= 2 ^ b.
Proof. intros. apply Z.pow_le_mono_r; lia. Qed.

Lemma pow2_lt (a b : Z) : 0 <= a < b -> 2 ^ a < 2 ^ b.
Proof. intros. apply Z.pow_lt_mono_r; lia. Qed.

(** A number of at most [d] digits at exponent [e] is below 2^(d+e). *)
Lemma dval_lt_pow (m : positive) (e : Z) :
  -2200 <= e ->
  2 ^ (Zpos (digits2_pos m) - 1 + e + 2200) <= dval (Zpos m) e
    < 2 ^ (Zpos (digits2_pos m) + e + 2200).
Proof.
  intros He. unfold dval. pose proof (digits2_pos_bounds m) as [L U].
  pose proof (pow2_pos (e + 2200) ltac:(lia)) as P.
  replace (Zpos (digits2_pos m) - 1 + e + 2200)
    with ((Zpos (digits2_pos m) - 1) + (e + 2200)) by lia.
  replace (Zpos (digits2_pos m) + e + 2200)
    with (Zpos (digits2_pos m) + (e + 2200)) by lia.
  rewrite (Z.pow_add_r 2 (Zpos (digits2_pos m) - 1) (e + 2200)) by lia.
  rewrite (Z.pow_add_r 2 (Zpos (digits2_pos m)) (e + 2200)) by lia.
  split.
  - apply Z.mul_le_mono_nonneg_r; lia.
  - apply Zmult_lt_compat_r; lia.
Qed.

(** Among canonical numbers the larger exponent is the larger number. *)
Lemma canonical_exp_lt (m1 m2 : positive) (e1 e2 : Z) :
  canonical m1 e1 -> canonical m2 e2 -> e1 < e2 ->
  dval (Zpos m1) e1 < dval (Zpos m2) e2.
Proof.
  unfold canonical. rewrite !fexp_spec. intros C1 C2 Hlt.
  assert (He1 : -1074 <= e1) by lia.
  pose proof (dval_lt_pow m1 e1 ltac:(lia)) as [_ U1].
  pose proof (dval_lt_pow m2 e2 ltac:(lia)) as [L2 _].
  assert (D2 : Zpos (digits2_pos m2) = 53) by lia.
  assert (D1 : Zpos (digits2_pos m1) <= 53) by lia.
  rewrite D2 in L2.
  pose proof (pow2_le (Zpos (digits2_pos m1) + e1 + 2200) (53 - 1 + e2 + 2200)
                ltac:(lia)).
  lia.
Qed.

Lemma dval_same_exp (m1 m2 e : Z) :
  -2200 <= e -> (dval m1 e ?= dval m2 e) = (m1 ?= m2).
Proof.
  intros He. unfold dval.
  pose proof (pow2_pos (e + 2200) ltac:(lia)).
  destruct (Z.compare_spec m1 m2) as [E | E | E].
  - subst. apply Z.compare_refl.
  - apply Z.compare_lt_iff. apply Zmult_lt_compat_r; lia.
  - apply Z.compare_gt_iff. apply Zmult_lt_compat_r; lia.
Qed.

(** On canonical positive numbers [SFcompare] is the order of values. *)
Lemma SFcompare_pos (m1 m2 : positive) (e1 e2 : Z) :
  canonical m1 e1 -> canonical m2 e2 ->
  SFcompare (S754_finite false m1 e1) (S754_finite false m2 e2) =
  Some (dval (Zpos m1) e1 ?= dval (Zpos m2) e2).
Proof.
  intros C1 C2. cbn [SFcompare]. f_equal.
  assert (He1 : -1074 <= e1) by (unfold canonical in C1; rewrite fexp_spec in C1; lia).
  assert (He2 : -1074 <= e2) by (unfold canonical in C2; rewrite fexp_spec in C2; lia).
  destruct (Z.compare_spec e1 e2) as [E | E | E].
  - subst. rewrite dval_same_exp by lia. reflexivity.
  - symmetry. apply Z.compare_lt_iff. now apply canonical_exp_lt.
  - symmetry. apply Z.compare_gt_iff. now apply canonical_exp_lt.
Qed.


Lemma shr_1_by : shr_by 1 shr_1.
Proof.
  intros [m r s] Hm. cbn [shr_m] in *. unfold inexact.
  change (2 ^ 1) with 2.
  destruct m as [|[p|p|]|p]; cbn [shr_1 shr_m shr_r shr_s]; try lia.
  - cbn. split; [reflexivity|]. intros H. right. destruct r, s; auto.
  - split.
    + rewrite Pos2Z.inj_xI.
      apply (Z.div_unique_pos _ _ (Zpos p) 1); lia.
    + intros _. left. rewrite Pos2Z.inj_xI.
      replace (2 * Zpos p + 1) with (1 + Zpos p * 2) by lia.
      rewrite Z.mod_add by lia. cbn. lia.
  - split.
    + rewrite Pos2Z.inj_xO.
      apply (Z.div_unique_pos _ _ (Zpos p) 0); lia.
    + intros H. right. destruct r, s; auto.
  - split; [reflexivity|]. intros _. left. cbn. lia.
Qed.

Lemma mod_mul_nonzero (m a b : Z) :
  0 < a -> 0 < b ->
  (m mod a <> 0 \/ (m / a) mod b <> 0) -> m mod (a * b) <> 0.
Proof.
  intros Ha Hb H E.
  apply Z.mod_divide in E; [|lia]. destruct E as [k E].
  destruct H as [H | H]; apply H.
  - apply Z.mod_divide; [lia|]. exists (k * b). lia.
  - apply Z.mod_divide; [lia|]. exists k.
    subst m. replace (k * (a * b)) with (k * b * a) by lia.
    rewrite Z.div_mul by lia. reflexivity.
Qed.

Lemma shr_by_comp (a b : Z) (f g : shr_record -> shr_record) :
  0 <= a -> 0 <= b -> shr_by a f -> shr_by b g ->
  shr_by (a + b) (fun mrs => g (f mrs)).
Proof.
  intros Ha Hb Hf Hg mrs Hm.
  destruct (Hf mrs Hm) as [F1 F2].
  pose proof (pow2_pos a Ha) as Pa. pose proof (pow2_pos b Hb) as Pb.
  assert (Hm' : 0 <= shr_m (f mrs)).
  { rewrite F1. apply Z.div_pos; lia. }
  destruct (Hg (f mrs) Hm') as [G1 G2].
  rewrite Z.pow_add_r by lia. split.
  - rewrite G1, F1. apply Z.div_div; lia.
  - intros H. destruct (G2 H) as [N | N].
    + left. apply mod_mul_nonzero; [lia | lia |]. right. now rewrite <- F1.
    + destruct (F2 N) as [N' | N']; [|now right].
      left. apply mod_mul_nonzero; [lia | lia |]. now left.
Qed.

Lemma iter_shr_1_by (p : positive) : shr_by (Zpos p) (iter_pos shr_1 p).
Proof.
  induction p as [p IH|p IH|]; cbn [iter_pos].
  - replace (Zpos p~1) with (1 + (Zpos p + Zpos p)) by lia.
    apply (shr_by_comp 1 (Zpos p + Zpos p) shr_1
             (fun x => iter_pos shr_1 p (iter_pos shr_1 p x))); try lia.
    + exact shr_1_by.
    + apply (shr_by_comp _ _ (iter_pos shr_1 p) (iter_pos shr_1 p)); auto; lia.
  - replace (Zpos p~0) with (Zpos p + Zpos p) by lia.
    apply (shr_by_comp _ _ (iter_pos shr_1 p) (iter_pos shr_1 p)); auto; lia.
  - exact shr_1_by.
Qed.

Lemma round_nearest_even_spec (mrs : shr_record) :
  let m1 := round_nearest_even (shr_m mrs) (loc_of_shr_record mrs) in
  shr_m mrs <= m1 <= shr_m mrs + 1 /\
  (m1 = shr_m mrs + 1 -> inexact mrs = true).
Proof.
  destruct mrs as [m [|] [|]]; cbn; unfold inexact; cbn;
    try (destruct (Z.even m)); repeat split; lia.
Qed.

(** What [shr] returns for a shift that is not negative. *)
Lemma shr_spec (m e n : Z) :
  0 <= m -> 0 <= n ->
  let '(mrs, e') := shr (shr_record_of_loc m loc_Exact) e n in
  e' = e + n /\ shr_m mrs = m / 2 ^ n /\
  (inexact mrs = true -> m mod 2 ^ n <> 0).
Proof.
  intros Hm Hn. unfold shr. destruct n as [|p|p]; try lia.
  - cbn. rewrite Z.div_1_r. repeat split; try lia; try discriminate.
  - destruct (iter_shr_1_by p (shr_record_of_loc m loc_Exact) Hm) as [A B].
    cbn [shr_record_of_loc shr_m] in *. repeat split; auto.
    intros H. destruct (B H) as [N | N]; [exact N | discriminate].
Qed.


Lemma digits2_pos_le (m : positive) (k : Z) :
  0 <= k -> Zpos m < 2 ^ k -> Zpos (digits2_pos m) <= k.
Proof.
  intros Hk H. pose proof (digits2_pos_bounds m) as [L _].
  destruct (Z_le_gt_dec (Zpos (digits2_pos m)) k) as [|G]; [assumption|].
  pose proof (pow2_le k (Zpos (digits2_pos m) - 1) ltac:(lia)). lia.
Qed.

Lemma digits2_pos_ge (m : positive) (k : Z) :
  0 <= k -> 2 ^ k <= Zpos m -> k + 1 <= Zpos (digits2_pos m).
Proof.
  intros Hk H. pose proof (digits2_pos_bounds m) as [_ U].
  destruct (Z_le_gt_dec (k + 1) (Zpos (digits2_pos m))) as [|G]; [assumption|].
  pose proof (pow2_le (Zpos (digits2_pos m)) k ltac:(lia)). lia.
Qed.

(** The shape of a rounded positive number. *)
Lemma round_aux_cases (s : positive) (e : Z) :
  let e1 := fexp prec emax (Zpos (digits2_pos s) + e) in
  let q := Zpos s / 2 ^ (e1 - e) in
  e <= e1 ->
  exists m1 : Z,
    q <= m1 <= q + 1 /\
    (m1 = q + 1 -> Zpos s mod 2 ^ (e1 - e) <> 0) /\
    (-1074 < e1 -> 2 ^ 52 <= q) /\
    ((m1 = 0 /\
      binary_round_aux prec emax false (Zpos s) e loc_Exact = S754_zero false) \/
     (exists (mp : positive) (ep : Z),
        canonical mp ep /\ dval (Zpos mp) ep = dval m1 e1 /\
        binary_round_aux prec emax false (Zpos s) e loc_Exact =
        if ep <=? 971 then S754_finite false mp ep
        else S754_infinity false)).
Proof.
  intros e1 q Hn.
  pose proof (digits2_pos_bounds s) as [SL SU].
  set (d := Zpos (digits2_pos s)) in *.
  assert (He1 : e1 = Z.max (d + e - 53) (-1074)) by reflexivity.
  assert (Pn : 0 < 2 ^ (e1 - e)) by (apply pow2_pos; lia).
  assert (Hq0 : 0 <= q) by (apply Z.div_pos; lia).
  assert (Hq53 : q < 2 ^ 53).
  { apply Z.div_lt_upper_bound; [lia|].
    rewrite <- Z.pow_add_r by lia.
    pose proof (pow2_le d (e1 - e + 53) ltac:(lia)). lia. }
  assert (Hq52 : -1074 < e1 -> 2 ^ 52 <= q).
  { intros G. apply Z.div_le_lower_bound; [lia|].
    rewrite <- Z.pow_add_r by lia.
    replace (e1 - e + 52) with (d - 1) by lia. exact SL. }
  unfold binary_round_aux, shr_fexp. cbn [Zdigits2]. fold d. fold e1.
  pose proof (shr_spec (Zpos s) e (e1 - e) ltac:(lia) ltac:(lia)) as H1.
  destruct (shr (shr_record_of_loc (Zpos s) loc_Exact) e (e1 - e))
    as [mrs e'].
  destruct H1 as (Ee & Hm & Hx). fold q in Hm.
  replace (e + (e1 - e)) with e1 in Ee by lia. subst e'.
  pose proof (round_nearest_even_spec mrs) as [R1 R2]. cbv zeta in R1, R2.
  set (m1 := round_nearest_even (shr_m mrs) (loc_of_shr_record mrs)) in *.
  rewrite Hm in R1, R2.
  exists m1. split; [exact R1|]. split; [intros E; apply Hx, R2, E|].
  split; [exact Hq52|].
  destruct m1 as [|mp|mp] eqn:Em1; [left | right | lia].
  - split; [reflexivity|]. cbn [Zdigits2 shr_record_of_loc].
    unfold shr.
    destruct (fexp prec emax (0 + e1) - e1) eqn:En; try reflexivity.
    exfalso. change (fexp prec emax (0 + e1)) with (Z.max (0 + e1 - 53) (-1074)) in En.
    lia.
  - cbn [Zdigits2 shr_record_of_loc].
    destruct (Z_lt_ge_dec (Zpos mp) (2 ^ 53)) as [Lt53 | Ge53].
    + pose proof (digits2_pos_le mp 53 ltac:(lia) Lt53) as D1.
      assert (Hc : canonical mp e1).
      { unfold canonical. rewrite fexp_spec.
        destruct (Z_le_gt_dec e1 (-1074)) as [L | G]; [lia|].
        pose proof (digits2_pos_ge mp 52 ltac:(lia) ltac:(lia)). lia. }
      exists mp, e1. split; [exact Hc|]. split; [reflexivity|].
      unfold canonical in Hc. rewrite Hc, Z.sub_diag. cbn [shr shr_m].
      reflexivity.
    + assert (E53 : Zpos mp = 2 ^ 53) by lia.
      assert (Emp : mp = 9007199254740992%positive).
      { change (2 ^ 53) with (Zpos 9007199254740992) in E53. congruence. }
      subst mp.
      exists 4503599627370496%positive, (e1 + 1).
      split; [|split].
      * unfold canonical. rewrite fexp_spec.
        change (Zpos (digits2_pos 4503599627370496)) with 53. lia.
      * unfold dval.
        replace (e1 + 1 + 2200) with (1 + (e1 + 2200)) by lia.
        rewrite Z.pow_add_r by lia. change (2 ^ 1) with 2. lia.
      * change (Zpos (digits2_pos 9007199254740992)) with 54.
        replace (fexp prec emax (54 + e1) - e1) with 1
          by (rewrite fexp_spec; lia).
        cbn [shr iter_pos shr_1 shr_m]. reflexivity.
Qed.

Lemma dval_floor (s : positive) (e e1 : Z) :
  -2200 <= e -> e <= e1 ->
  let q := Zpos s / 2 ^ (e1 - e) in
  dval q e1 <= dval (Zpos s) e < dval (q + 1) e1 /\
  (Zpos s mod 2 ^ (e1 - e) <> 0 -> dval q e1 < dval (Zpos s) e).
Proof.
  intros He Hn q. unfold dval.
  assert (Pn : 0 < 2 ^ (e1 - e)) by (apply pow2_pos; lia).
  assert (Pe : 0 < 2 ^ (e + 2200)) by (apply pow2_pos; lia).
  replace (e1 + 2200) with ((e1 - e) + (e + 2200)) by lia.
  rewrite Z.pow_add_r by lia.
  pose proof (Z.div_mod (Zpos s) (2 ^ (e1 - e)) ltac:(lia)) as DM.
  pose proof (Z.mod_pos_bound (Zpos s) (2 ^ (e1 - e)) Pn) as MB.
  fold q in DM.
  repeat split.
  - rewrite Z.mul_assoc. apply Z.mul_le_mono_nonneg_r; lia.
  - rewrite Z.mul_assoc. apply Zmult_lt_compat_r; lia.
  - intros N. rewrite Z.mul_assoc. apply Zmult_lt_compat_r; lia.
Qed.

(** A canonical number below 2^(d+e-1) has a smaller exponent than
    the rounding of a [d]-digit number at exponent [e], and conversely. *)
Lemma canonical_small (mr : positive) (er d e : Z) :
  canonical mr er -> er < fexp prec emax (d + e) ->
  dval (Zpos mr) er < 2 ^ (d - 1 + e + 2200).
Proof.
  unfold canonical. rewrite !fexp_spec. intros C Hlt.
  pose proof (dval_lt_pow mr er ltac:(lia)) as [_ U].
  pose proof (pow2_le (Zpos (digits2_pos mr) + er + 2200) (d - 1 + e + 2200)
                ltac:(lia)).
  lia.
Qed.

Lemma dval_multiple (mr : positive) (er e1 : Z) :
  -2200 <= e1 <= er ->
  dval (Zpos mr) er = dval (Zpos mr * 2 ^ (er - e1)) e1.
Proof.
  intros H. unfold dval.
  replace (er + 2200) with ((er - e1) + (e1 + 2200)) by lia.
  rewrite Z.pow_add_r by lia. lia.
Qed.

Lemma dval_lt_inv (a b e : Z) : -2200 <= e -> dval a e < dval b e -> a < b.
Proof.
  intros He H. pose proof (dval_same_exp a b e He) as C.
  apply Z.compare_lt_iff in H. rewrite H in C. symmetry in C.
  now apply Z.compare_lt_iff.
Qed.

Lemma dval_le_mono (a b e : Z) : -2200 <= e -> a <= b -> dval a e <= dval b e.
Proof.
  intros He H. unfold dval. apply Z.mul_le_mono_nonneg_r; [|exact H].
  apply Z.lt_le_incl, pow2_pos. lia.
Qed.

Section Rounding.
Variables (s : positive) (e : Z) (mr : positive) (er : Z).
Hypothesis He : -2200 <= e.
Hypothesis Hn : e <= fexp prec emax (Zpos (digits2_pos s) + e).
Hypothesis Hc : canonical mr er.

(** Rounding does not cross a canonical number from below... *)
Lemma round_le :
  er <= 971 ->
  dval (Zpos s) e <= dval (Zpos mr) er ->
  SFleb (binary_round_aux prec emax false (Zpos s) e loc_Exact)
        (S754_finite false mr er) = true.
Proof.
  intros Her Hv.
  destruct (round_aux_cases s e Hn)
    as (m1 & Hm1 & Hx & Hq52 & [[E0 ->] | (mp & ep & Cp & Vp & ->)]);
    [reflexivity|].
  set (e1 := fexp prec emax (Zpos (digits2_pos s) + e)) in *.
  set (q := Zpos s / 2 ^ (e1 - e)) in *.
  assert (He1 : -1074 <= e1) by (unfold e1; rewrite fexp_spec; lia).
  destruct (dval_floor s e e1 He Hn) as [[F1 F2] F3]. fold q in F1, F2, F3.
  pose proof (dval_lt_pow s e He) as [VL _].
  assert (B : dval m1 e1 <= dval (Zpos mr) er).
  { destruct (Z.eq_dec m1 q) as [-> | Nq]; [lia|].
    assert (E1 : m1 = q + 1) by lia. subst m1.
    specialize (F3 (Hx eq_refl)).
    destruct (Z_lt_ge_dec er e1) as [L | G].
    - pose proof (canonical_small mr er _ e Hc L). lia.
    - rewrite (dval_multiple mr er e1) in * by lia.
      apply dval_le_mono; [lia|].
      assert (q < Zpos mr * 2 ^ (er - e1)) by (apply (dval_lt_inv _ _ e1); lia).
      lia. }
  rewrite <- Vp in B.
  assert (Hep : ep <= er).
  { destruct (Z_le_gt_dec ep er) as [|G]; [assumption|].
    pose proof (canonical_exp_lt mr mp er ep Hc Cp ltac:(lia)). lia. }
  replace (ep <=? 971) with true by (symmetry; apply Z.leb_le; lia).
  unfold SFleb. rewrite SFcompare_pos by assumption.
  destruct (Z.compare_spec (dval (Zpos mp) ep) (dval (Zpos mr) er));
    try reflexivity; lia.
Qed.

(** ... nor from above. *)
Lemma round_ge :
  dval (Zpos mr) er <= dval (Zpos s) e ->
  SFleb (S754_finite false mr er)
        (binary_round_aux prec emax false (Zpos s) e loc_Exact) = true.
Proof.
  intros Hv.
  destruct (round_aux_cases s e Hn) as (m1 & Hm1 & Hx & Hq52 & Hres).
  set (e1 := fexp prec emax (Zpos (digits2_pos s) + e)) in *.
  set (q := Zpos s / 2 ^ (e1 - e)) in *.
  assert (He1 : -1074 <= e1) by (unfold e1; rewrite fexp_spec; lia).
  assert (Her : -1074 <= er)
    by (unfold canonical in Hc; rewrite fexp_spec in Hc; lia).
  destruct (dval_floor s e e1 He Hn) as [[F1 F2] F3]. fold q in F1, F2, F3.
  pose proof (dval_lt_pow mr er ltac:(lia)) as [RL _].
  assert (B : dval (Zpos mr) er <= dval q e1).
  { destruct (Z_le_gt_dec (dval (Zpos mr) er) (dval q e1)) as [|G];
      [assumption|]. exfalso.
    destruct (Z_lt_ge_dec er e1) as [L | G'].
    - pose proof (canonical_small mr er _ e Hc L) as Sm.
      specialize (Hq52 ltac:(lia)).
      assert (E1 : e1 = Zpos (digits2_pos s) + e - 53)
        by (unfold e1 in *; rewrite fexp_spec in *; lia).
      assert (2 ^ (Zpos (digits2_pos s) - 1 + e + 2200) <= dval q e1).
      { unfold dval. rewrite E1.
        replace (Zpos (digits2_pos s) - 1 + e + 2200)
          with (52 + (Zpos (digits2_pos s) + e - 53 + 2200)) by lia.
        rewrite Z.pow_add_r by lia.
        apply Z.mul_le_mono_nonneg_r; [|lia].
        apply Z.lt_le_incl, pow2_pos. lia. }
      lia.
    - rewrite (dval_multiple mr er e1) in * by lia.
      assert (q < Zpos mr * 2 ^ (er - e1)) by (apply (dval_lt_inv _ _ e1); lia).
      assert (Zpos mr * 2 ^ (er - e1) < q + 1)
        by (apply (dval_lt_inv _ _ e1); lia).
      lia. }
  assert (B1 : dval (Zpos mr) er <= dval m1 e1).
  { pose proof (dval_le_mono q m1 e1 ltac:(lia) ltac:(lia)). lia. }
  destruct Hres as [[E0 _] | (mp & ep & Cp & Vp & ->)].
  - exfalso. subst m1. unfold dval in B1 at 2. lia.
  - rewrite <- Vp in B1.
    destruct (ep <=? 971); [|reflexivity].
    unfold SFleb. rewrite SFcompare_pos by assumption.
    destruct (Z.compare_spec (dval (Zpos mr) er) (dval (Zpos mp) ep));
      try reflexivity; lia.
Qed.

End Rounding.


Lemma round_aux_sign (m e : Z) (l : location) :
  binary_round_aux prec emax true m e l =
  SFopp (binary_round_aux prec emax false m e l).
Proof.
  unfold binary_round_aux.
  destruct (shr_fexp prec emax m e l) as [mrs' e'].
  destruct (shr_fexp prec emax _ e' loc_Exact) as [mrs'' e''].
  destruct (shr_m mrs''); [reflexivity| |reflexivity].
  destruct (e'' <=? emax - prec); reflexivity.
Qed.

Lemma iter_xO_spec (m d : positive) :
  Zpos (Pos.iter xO m d) = Zpos m * 2 ^ Zpos d /\
  Zpos (digits2_pos (Pos.iter xO m d)) = Zpos (digits2_pos m) + Zpos d.
Proof.
  induction d as [|d IH] using Pos.peano_ind.
  - cbn [Pos.iter digits2_pos]. rewrite Pos2Z.inj_succ.
    change (2 ^ 1) with 2. lia.
  - rewrite Pos.iter_succ. cbn [digits2_pos].
    rewrite Pos2Z.inj_succ, Pos2Z.inj_xO, Pos2Z.inj_succ, Z.pow_succ_r by lia.
    lia.
Qed.

Lemma shl_align_spec (m : positive) (e ez : Z) :
  ez <= e ->
  Zpos (fst (shl_align m e ez)) = Zpos m * 2 ^ (e - ez) /\
  Zpos (digits2_pos (fst (shl_align m e ez))) = Zpos (digits2_pos m) + (e - ez) /\
  snd (shl_align m e ez) = ez.
Proof.
  intros H. unfold shl_align.
  destruct (ez - e) as [|d|d] eqn:E; try lia.
  - replace (e - ez) with 0 by lia. cbn [fst snd]. rewrite Z.pow_0_r. lia.
  - cbn [fst snd]. replace (e - ez) with (Zpos d) by lia.
    destruct (iter_xO_spec m d) as [A B]. auto.
Qed.

Lemma shl_align_id (m : positive) (e ez : Z) :
  e <= ez -> shl_align m e ez = (m, e).
Proof.
  intros H. unfold shl_align. destruct (ez - e) eqn:E; try reflexivity. lia.
Qed.

Lemma dval_shift (m e ez : Z) :
  -2200 <= ez <= e -> dval (m * 2 ^ (e - ez)) ez = dval m e.
Proof.
  intros H. unfold dval.
  replace (e + 2200) with ((e - ez) + (ez + 2200)) by lia.
  rewrite (Z.pow_add_r 2 (e - ez) (ez + 2200)) by lia. ring.
Qed.

(** [binary_round] is [binary_round_aux] on an aligned number of the
    same value. *)
Lemma binary_round_aligned (sg : bool) (s : positive) (e : Z) :
  -2200 <= e ->
  exists (s' : positive) (e' : Z),
    binary_round prec emax sg s e =
      binary_round_aux prec emax sg (Zpos s') e' loc_Exact /\
    dval (Zpos s') e' = dval (Zpos s) e /\
    -2200 <= e' /\
    e' <= fexp prec emax (Zpos (digits2_pos s') + e').
Proof.
  intros He. unfold binary_round.
  set (f := fexp prec emax (Zpos (digits2_pos s) + e)).
  assert (Hf : -1074 <= f) by (unfold f; rewrite fexp_spec; lia).
  destruct (Z_le_gt_dec e f) as [L | G].
  - rewrite (shl_align_id s e f L). exists s, e. fold f. auto.
  - destruct (shl_align_spec s e f ltac:(lia)) as (A & B & C).
    destruct (shl_align s e f) as [s' e']. cbn [fst snd] in *. subst e'.
    exists s', f. split; [reflexivity|]. split; [|split; [lia|]].
    + rewrite A. apply dval_shift. lia.
    + rewrite B. replace (Zpos (digits2_pos s) + (e - f) + f)
        with (Zpos (digits2_pos s) + e) by lia. fold f. lia.
Qed.

Section BRound.
Variables (s : positive) (e : Z) (mr : positive) (er : Z).
Hypothesis He : -2200 <= e.
Hypothesis Hc : canonical mr er.

Lemma bround_le :
  er <= 971 ->
  dval (Zpos s) e <= dval (Zpos mr) er ->
  SFleb (binary_round prec emax false s e) (S754_finite false mr er) = true.
Proof.
  intros Her Hv.
  destruct (binary_round_aligned false s e He)
    as (s' & e' & -> & V & He' & Hn).
  apply round_le; auto. now rewrite V.
Qed.

Lemma bround_ge :
  dval (Zpos mr) er <= dval (Zpos s) e ->
  SFleb (S754_finite false mr er) (binary_round prec emax false s e) = true.
Proof.
  intros Hv.
  destruct (binary_round_aligned false s e He)
    as (s' & e' & -> & V & He' & Hn).
  apply round_ge; auto. now rewrite V.
Qed.

End BRound.

Lemma bround_sign (s : positive) (e : Z) :
  binary_round prec emax true s e = SFopp (binary_round prec emax false s e).
Proof.
  unfold binary_round. destruct (shl_align s e _) as [mz ez].
  apply round_aux_sign.
Qed.

Lemma round_aux_nonneg (s : positive) (e : Z) :
  e <= fexp prec emax (Zpos (digits2_pos s) + e) ->
  nonneg (binary_round_aux prec emax false (Zpos s) e loc_Exact).
Proof.
  intros Hn.
  destruct (round_aux_cases s e Hn)
    as (m1 & _ & _ & _ & [[_ ->] | (mp & ep & _ & _ & ->)]); cbn; auto.
  destruct (ep <=? 971); cbn; auto.
Qed.

Lemma bround_nonneg (s : positive) (e : Z) :
  -2200 <= e -> nonneg (binary_round prec emax false s e).
Proof.
  intros He.
  destruct (binary_round_aligned false s e He)
    as (s' & e' & -> & V & He' & Hn).
  now apply round_aux_nonneg.
Qed.

(** [SFcompare] and sign change. *)
Lemma SFcompare_opp (a b : spec_float) :
  SFcompare (SFopp a) (SFopp b) = SFcompare b a.
Proof.
  destruct a as [sa|sa| |sa ma ea], b as [sb|sb| |sb mb eb]; cbn;
    try reflexivity;
    try (destruct sa; reflexivity); try (destruct sb; reflexivity);
    try (destruct sa, sb; reflexivity).
  destruct sa, sb; cbn; try reflexivity;
    rewrite (Z.compare_antisym ea eb);
    destruct (Z.compare ea eb); cbn; try reflexivity;
    first [rewrite (Pos.compare_cont_antisym mb ma Eq)
          | rewrite (Pos.compare_cont_antisym ma mb Eq)]; reflexivity.
Qed.

Lemma SFleb_opp (a b : spec_float) :
  SFleb (SFopp a) (SFopp b) = SFleb b a.
Proof. unfold SFleb. now rewrite SFcompare_opp. Qed.


Lemma dval_add (a b e : Z) : dval (a + b) e = dval a e + dval b e.
Proof. unfold dval. ring. Qed.

Lemma dval_opp (a e : Z) : dval (- a) e = - dval a e.
Proof. unfold dval. ring. Qed.

Lemma dval_pos (m : positive) (e : Z) : -2200 <= e -> 0 < dval (Zpos m) e.
Proof.
  intros He. unfold dval. apply Z.mul_pos_pos; [lia|]. apply pow2_pos. lia.
Qed.

Lemma dval_sign (D e : Z) :
  -2200 <= e ->
  (0 < D <-> 0 < dval D e) /\ (D < 0 <-> dval D e < 0) /\
  (D = 0 <-> dval D e = 0).
Proof.
  intros He. unfold dval.
  pose proof (pow2_pos (e + 2200) ltac:(lia)) as P. nia.
Qed.

(** [binary_normalize] of a number no larger than a positive canonical
    number, or no smaller than a negative one. *)
Section Normalize.
Variables (D ez : Z) (mr : positive) (er : Z).
Hypothesis Hez : -2200 <= ez.
Hypothesis Hc : canonical mr er.
Hypothesis Her : er <= 971.

Lemma normalize_le :
  dval D ez <= dval (Zpos mr) er ->
  SFleb (binary_normalize prec emax D ez false) (S754_finite false mr er) = true.
Proof.
  intros Hv. destruct D as [|p|p]; cbn [binary_normalize].
  - reflexivity.
  - now apply bround_le.
  - rewrite bround_sign.
    pose proof (bround_nonneg p ez Hez) as N.
    destruct (binary_round prec emax false p ez) as [[|]|[|]| |[|] m e];
      cbn in N; try contradiction; reflexivity.
Qed.

Lemma normalize_ge_neg :
  - dval (Zpos mr) er <= dval D ez ->
  SFleb (S754_finite true mr er) (binary_normalize prec emax D ez false) = true.
Proof.
  intros Hv. destruct D as [|p|p]; cbn [binary_normalize].
  - reflexivity.
  - pose proof (bround_nonneg p ez Hez) as N.
    destruct (binary_round prec emax false p ez) as [[|]|[|]| |[|] m e];
      cbn in N; try contradiction; reflexivity.
  - rewrite bround_sign.
    change (S754_finite true mr er) with (SFopp (S754_finite false mr er)).
    rewrite SFleb_opp. apply bround_le; auto.
    change (Zneg p) with (- Zpos p) in Hv. rewrite dval_opp in Hv. lia.
Qed.

End Normalize.

(** The sum of two finite numbers is the normalisation of the exact sum
    of their aligned mantissas. *)
Lemma SFadd_finite (sx : bool) (mx : positive) (ex : Z)
                   (sy : bool) (my : positive) (ey : Z) :
  let ez := Z.min ex ey in
  SFadd prec emax (S754_finite sx mx ex) (S754_finite sy my ey) =
  binary_normalize prec emax
    (cond_Zopp sx (Zpos mx * 2 ^ (ex - ez)) +
     cond_Zopp sy (Zpos my * 2 ^ (ey - ez))) ez false.
Proof.
  cbv zeta. cbn [SFadd].
  destruct (shl_align_spec mx ex (Z.min ex ey) ltac:(lia)) as (A & _).
  destruct (shl_align_spec my ey (Z.min ex ey) ltac:(lia)) as (B & _).
  rewrite A, B. reflexivity.
Qed.

Lemma dval_cond_opp (s : bool) (m e ez : Z) :
  -2200 <= ez <= e ->
  dval (cond_Zopp s (m * 2 ^ (e - ez))) ez =
  if s then - dval m e else dval m e.
Proof.
  intros H. destruct s; cbn [cond_Zopp].
  - rewrite dval_opp, dval_shift by lia. reflexivity.
  - now rewrite dval_shift.
Qed.

(** The value of the sum, in terms of the values of the operands. *)
Lemma SFadd_finite_value (sx : bool) (mx : positive) (ex : Z)
                         (sy : bool) (my : positive) (ey : Z) :
  -2200 <= ex -> -2200 <= ey ->
  exists D ez : Z,
    -2200 <= ez /\
    SFadd prec emax (S754_finite sx mx ex) (S754_finite sy my ey) =
      binary_normalize prec emax D ez false /\
    dval D ez = (if sx then - dval (Zpos mx) ex else dval (Zpos mx) ex) +
                (if sy then - dval (Zpos my) ey else dval (Zpos my) ey).
Proof.
  intros Hx Hy.
  exists (cond_Zopp sx (Zpos mx * 2 ^ (ex - Z.min ex ey)) +
          cond_Zopp sy (Zpos my * 2 ^ (ey - Z.min ex ey))), (Z.min ex ey).
  split; [lia|]. split; [apply SFadd_finite|].
  rewrite dval_add, !dval_cond_opp by lia. reflexivity.
Qed.

(** The product of a finite number with a normal positive constant. *)
Lemma SFmul_finite (s : bool) (m : positive) (e : Z) (mc : positive) (ec : Z) :
  2 ^ 52 <= Zpos mc -> -1074 <= e -> -1100 <= ec ->
  let r := binary_round_aux prec emax false (Zpos (m * mc)) (e + ec) loc_Exact in
  SFmul prec emax (S754_finite s m e) (S754_finite false mc ec) =
    (if s then SFopp r else r) /\
  e + ec <= fexp prec emax (Zpos (digits2_pos (m * mc)) + (e + ec)) /\
  nonneg r.
Proof.
  intros Hmc He Hec. cbv zeta.
  assert (Hn : e + ec <= fexp prec emax (Zpos (digits2_pos (m * mc)) + (e + ec))).
  { rewrite fexp_spec.
    pose proof (digits2_pos_ge (m * mc) 52 ltac:(lia)) as G.
    rewrite Pos2Z.inj_mul in G. specialize (G ltac:(nia)). lia. }
  split; [|split; [exact Hn | now apply round_aux_nonneg]].
  cbn [SFmul]. rewrite xorb_false_r.
  destruct s; [apply round_aux_sign | reflexivity].
Qed.

(** Multiplying by a constant of exponent [ec <= 0] keeps the order of
    values; the two sides are compared after scaling by [2^(-ec)]. *)
Lemma dval_mul_const (a ea c ec : Z) :
  ec <= 0 -> -2200 <= ea + ec ->
  dval (a * c) (ea + ec) * 2 ^ (- ec) = dval a ea * c.
Proof.
  intros Hec H. unfold dval.
  replace (ea + 2200) with ((ea + ec + 2200) + (- ec)) by lia.
  rewrite (Z.pow_add_r 2 (ea + ec + 2200) (- ec)) by lia. ring.
Qed.


(** ** The blend of the clipper in binary64 *)

Lemma blend_constants :
  SF99 = S754_finite false M99 (-53) /\ SFC1 = S754_finite false MC1 (-53) /\
  SFC2 = S754_finite false MC2 (-54) /\ SFY = S754_finite false MY (-54).
Proof. repeat split. Qed.

Lemma blend_canonical :
  canonical M99 (-53) /\ canonical MC1 (-53) /\ canonical MC2 (-54) /\
  canonical MY (-54).
Proof. repeat split. Qed.

(** The exact inequalities between the constants that the bound rests
    on: below 0.99 the product with [1.0 - softness] is at most [SFY],
    and [0.99 * softness] plus [SFY] is at most 0.99. *)
Lemma blend_margins :
  dval (Zpos M99 - 1) (-53) * Zpos MC2 <= dval (Zpos MY) (-54) * 2 ^ 54 /\
  dval (Zpos MC1) (-53) + dval (Zpos MY) (-54) <= dval (Zpos M99) (-53) /\
  dval (Zpos M99) (-53) * Zpos MC2 <= dval (Zpos M99) (-53) * 2 ^ 54 /\
  2 ^ 52 <= Zpos MC2 /\ 2 ^ 52 <= Zpos M99 - 1.
Proof. vm_compute. repeat split; discriminate. Qed.

Lemma valid_finite (s : bool) (m : positive) (e : Z) :
  valid_binary (S754_finite s m e) = true ->
  canonical m e /\ e <= 971 /\ -1074 <= e.
Proof.
  cbn [SpecFloat.valid_binary]. unfold bounded, canonical_mantissa.
  intros H. apply andb_true_iff in H. destruct H as [H1 H2].
  apply Z.eqb_eq in H1. apply Z.leb_le in H2.
  unfold canonical. change (emax - prec) with 971 in H2.
  rewrite fexp_spec in *. lia.
Qed.

(** Below 0.99 means at most the double before 0.99. *)
Lemma below_099 (m : positive) (e : Z) :
  canonical m e ->
  dval (Zpos m) e < dval (Zpos M99) (-53) ->
  dval (Zpos m) e <= dval (Zpos M99 - 1) (-53).
Proof.
  intros Hc Hlt. destruct blend_canonical as (C99 & _).
  destruct blend_margins as (_ & _ & _ & _ & G).
  assert (He : -1074 <= e) by (unfold canonical in Hc; rewrite fexp_spec in Hc; lia).
  destruct (Z.compare_spec e (-53)) as [E | E | E].
  - subst e. apply dval_le_mono; [lia|].
    pose proof (dval_lt_inv _ _ (-53) ltac:(lia) Hlt). lia.
  - pose proof (dval_lt_pow m e ltac:(lia)) as [_ U].
    assert (D : Zpos (digits2_pos m) <= 53)
      by (unfold canonical in Hc; rewrite fexp_spec in Hc; lia).
    pose proof (pow2_le (Zpos (digits2_pos m) + e + 2200) (52 + 2147)
                  ltac:(lia)) as P.
    assert (2 ^ (52 + 2147) <= dval (Zpos M99 - 1) (-53)).
    { unfold dval. rewrite (Z.pow_add_r 2 52 2147) by lia.
      change (-53 + 2200) with 2147.
      apply Z.mul_le_mono_nonneg_r; [|exact G].
      apply Z.lt_le_incl, pow2_pos. lia. }
    lia.
  - pose proof (canonical_exp_lt M99 m (-53) e C99 Hc ltac:(lia)). lia.
Qed.

(** The magnitude a product with [1.0 - softness] can reach. *)
Lemma product_bound (m : positive) (e : Z) (tight : bool) :
  canonical m e -> -1074 <= e ->
  (if tight then dval (Zpos m) e < dval (Zpos M99) (-53)
   else dval (Zpos m) e <= dval (Zpos M99) (-53)) ->
  SFleb (binary_round_aux prec emax false (Zpos (m * MC2)) (e + -54) loc_Exact)
        (if tight then SFY else SF99) = true.
Proof.
  intros Hc He Hv.
  destruct blend_canonical as (C99 & _ & _ & CY).
  destruct blend_margins as (M1 & _ & M3 & G2 & _).
  destruct (SFmul_finite false m e MC2 (-54) G2 He ltac:(lia)) as (_ & Hn & _).
  pose proof (dval_mul_const (Zpos m) e (Zpos MC2) (-54) ltac:(lia) ltac:(lia))
    as E. change (- -54) with 54 in E.
  pose proof (dval_pos m e ltac:(lia)) as Pm.
  assert (P54 : 0 < 2 ^ 54) by (apply pow2_pos; lia).
  destruct tight.
  - apply round_le; auto; try lia.
    rewrite Pos2Z.inj_mul.
    pose proof (below_099 m e Hc Hv) as B.
    assert (dval (Zpos m) e * Zpos MC2 <= dval (Zpos M99 - 1) (-53) * Zpos MC2)
      by (apply Z.mul_le_mono_nonneg_r; lia).
    apply (Zmult_le_reg_r _ _ (2 ^ 54)); [lia|]. rewrite E. lia.
  - apply round_le; auto; try lia.
    rewrite Pos2Z.inj_mul.
    assert (dval (Zpos m) e * Zpos MC2 <= dval (Zpos M99) (-53) * Zpos MC2)
      by (apply Z.mul_le_mono_nonneg_r; lia).
    apply (Zmult_le_reg_r _ _ (2 ^ 54)); [lia|]. rewrite E. lia.
Qed.

(** The blend [c + t * (1.0 - softness)], with [c] either
    [0.99 * softness] ([sc = false]) or its opposite ([sc = true]), for
    [t] within 0.99 of zero and short of the bound on the side of [c]. *)
Lemma blend_within (sc : bool) (f : spec_float) :
  valid_binary f = true ->
  valid_binary (SFmul prec emax f SFC2) = true ->
  match f with
  | S754_zero _ => True
  | S754_finite s m e =>
      if Bool.eqb s sc then dval (Zpos m) e < dval (Zpos M99) (-53)
      else dval (Zpos m) e <= dval (Zpos M99) (-53)
  | _ => False
  end ->
  let r := SFadd prec emax (S754_finite sc MC1 (-53)) (SFmul prec emax f SFC2) in
  SFleb SFN99 r = true /\ SFleb r SF99 = true.
Proof.
  intros Vf Vy Hf. cbv zeta.
  destruct blend_canonical as (C99 & CC1 & _ & CY).
  destruct blend_margins as (_ & M2 & _ & G2 & _).
  destruct f as [s|s| |s m e]; try contradiction.
  - destruct s, sc; split; reflexivity.
  - destruct (valid_finite s m e Vf) as (Hc & He1 & He2).
    pose proof (product_bound m e (Bool.eqb s sc) Hc He2 Hf) as PB.
    destruct (SFmul_finite s m e MC2 (-54) G2 He2 ltac:(lia)) as (Em & Hn & Nn).
    change (S754_finite false MC2 (-54)) with SFC2 in Em.
    rewrite Em in Vy |- *. clear Em.
    destruct (binary_round_aux prec emax false (Zpos (m * MC2)) (e + -54)
                loc_Exact) as [[|]|[|]| |[|] my ey];
      cbn in Nn; try contradiction.
    + destruct s, sc; split; reflexivity.
    + destruct (Bool.eqb s sc); discriminate.
    + assert (Vy' : valid_binary (S754_finite s my ey) = true)
        by (destruct s; exact Vy).
      destruct (valid_finite s my ey Vy') as (Cy & Hy1 & Hy2).
      assert (By : dval (Zpos my) ey <=
                   (if Bool.eqb s sc then dval (Zpos MY) (-54)
                    else dval (Zpos M99) (-53))).
      { destruct (Bool.eqb s sc); unfold SFleb in PB;
          [change SFY with (S754_finite false MY (-54)) in PB
          |change SF99 with (S754_finite false M99 (-53)) in PB];
          rewrite SFcompare_pos in PB by assumption;
          match type of PB with
          | context [?a ?= ?b] => destruct (Z.compare_spec a b)
          end; try discriminate; lia. }
      pose proof (dval_pos my ey ltac:(lia)) as Py.
      pose proof (dval_pos MC1 (-53) ltac:(lia)) as Pc.
      pose proof (dval_pos M99 (-53) ltac:(lia)) as P99.
      pose proof (dval_pos MY (-54) ltac:(lia)) as PY'.
      replace (if s then SFopp (S754_finite false my ey)
               else S754_finite false my ey) with (S754_finite s my ey)
        by (destruct s; reflexivity).
      destruct (SFadd_finite_value sc MC1 (-53) s my ey ltac:(lia) ltac:(lia))
        as (D & ez & Hez & -> & VD).
      split.
      * apply normalize_ge_neg; auto; try lia.
        rewrite VD. destruct s, sc; cbn [Bool.eqb] in By; lia.
      * apply normalize_le; auto; try lia.
        rewrite VD. destruct s, sc; cbn [Bool.eqb] in By; lia.
Qed.

(** The blend for [t] beyond 0.99 on the side opposite to [c] stays on
    the side of [c] within 0.99. *)
Lemma blend_far (sc : bool) (f : spec_float) :
  valid_binary f = true ->
  valid_binary (SFmul prec emax f SFC2) = true ->
  match f with
  | S754_infinity s | S754_finite s _ _ => s = negb sc
  | _ => False
  end ->
  let r := SFadd prec emax (S754_finite sc MC1 (-53)) (SFmul prec emax f SFC2) in
  if sc then SFleb SFN99 r = true else SFleb r SF99 = true.
Proof.
  intros Vf Vy Hf. cbv zeta.
  destruct blend_canonical as (C99 & CC1 & _ & CY).
  destruct blend_margins as (_ & M2 & _ & G2 & _).
  pose proof (dval_pos MY (-54) ltac:(lia)) as PY.
  destruct f as [s|s| |s m e]; try contradiction; subst s.
  - destruct sc; reflexivity.
  - destruct (valid_finite (negb sc) m e Vf) as (Hc & He1 & He2).
    destruct (SFmul_finite (negb sc) m e MC2 (-54) G2 He2 ltac:(lia))
      as (Em & Hn & Nn).
    change (S754_finite false MC2 (-54)) with SFC2 in Em.
    rewrite Em in Vy |- *. clear Em.
    destruct (binary_round_aux prec emax false (Zpos (m * MC2)) (e + -54)
                loc_Exact) as [[|]|[|]| |[|] my ey];
      cbn in Nn; try contradiction.
    + destruct sc; reflexivity.
    + destruct sc; reflexivity.
    + assert (Vy' : valid_binary (S754_finite (negb sc) my ey) = true)
        by (destruct sc; exact Vy).
      destruct (valid_finite _ my ey Vy') as (Cy & Hy1 & Hy2).
      pose proof (dval_pos my ey ltac:(lia)) as Py.
      pose proof (dval_pos MC1 (-53) ltac:(lia)) as Pc.
      pose proof (dval_pos M99 (-53) ltac:(lia)) as P99.
      replace (if negb sc then SFopp (S754_finite false my ey)
               else S754_finite false my ey) with (S754_finite (negb sc) my ey)
        by (destruct sc; reflexivity).
      destruct (SFadd_finite_value sc MC1 (-53) (negb sc) my ey
                  ltac:(lia) ltac:(lia)) as (D & ez & Hez & -> & VD).
      destruct sc; cbn [negb] in VD.
      * apply normalize_ge_neg; auto; lia.
      * apply normalize_le; auto; lia.
Qed.


(** [adclip] in binary64, with its constants folded. *)
Lemma adclip_binary64_eq (v l : float) :
  fst (adclip (FO := Binary64) v l) =
  let K := b64 c_0_99 in
  let NK := PrimFloat.opp K in
  let l1 := if PrimFloat.leb K l
            then (if PrimFloat.ltb v K then blend_hi v else K) else l in
  let l2 := if PrimFloat.leb l1 NK
            then (if PrimFloat.ltb NK v then blend_lo v else NK) else l1 in
  let v1 := if PrimFloat.ltb K v
            then (if PrimFloat.ltb l2 K then blend_hi l2 else K) else v in
  if PrimFloat.ltb v1 NK
  then (if PrimFloat.ltb NK l2 then blend_lo l2 else NK) else v1.
Proof. reflexivity. Qed.

Lemma within_clip_spec (x : float) :
  within_clip (FO := Binary64) x =
  SFleb SFN99 (Prim2SF x) && SFleb (Prim2SF x) SF99.
Proof.
  unfold within_clip. cbn [fge fle fneg lit Binary64].
  rewrite !leb_spec. reflexivity.
Qed.

Lemma blend_prim (sc : bool) (t : float) :
  match Prim2SF t with
  | S754_zero _ => True
  | S754_finite s m e =>
      if Bool.eqb s sc then dval (Zpos m) e < dval (Zpos M99) (-53)
      else dval (Zpos m) e <= dval (Zpos M99) (-53)
  | _ => False
  end ->
  within_clip (FO := Binary64) (if sc then blend_lo t else blend_hi t) = true.
Proof.
  intros H. rewrite within_clip_spec.
  pose proof (Prim2SF_valid t) as Vt.
  pose proof (Prim2SF_valid (PrimFloat.mul t blend_c2)) as Vy.
  rewrite mul_spec in Vy. change (Prim2SF blend_c2) with SFC2 in Vy.
  destruct (blend_within sc (Prim2SF t) Vt Vy H) as [A B].
  destruct sc; unfold blend_lo, blend_hi;
    rewrite add_spec, mul_spec; change (Prim2SF blend_c2) with SFC2;
    [change (Prim2SF (- blend_c1)) with (S754_finite true MC1 (-53))
    |change (Prim2SF blend_c1) with (S754_finite false MC1 (-53))];
    unfold SF64add, SF64mul; rewrite A, B; reflexivity.
Qed.

Lemma blend_prim_far (sc : bool) (t : float) :
  match Prim2SF t with
  | S754_infinity s | S754_finite s _ _ => s = negb sc
  | _ => False
  end ->
  if sc then PrimFloat.leb (- b64 c_0_99) (blend_lo t) = true
  else PrimFloat.leb (blend_hi t) (b64 c_0_99) = true.
Proof.
  intros H.
  pose proof (Prim2SF_valid t) as Vt.
  pose proof (Prim2SF_valid (PrimFloat.mul t blend_c2)) as Vy.
  rewrite mul_spec in Vy. change (Prim2SF blend_c2) with SFC2 in Vy.
  pose proof (blend_far sc (Prim2SF t) Vt Vy H) as A. cbv zeta in A.
  destruct sc; rewrite leb_spec; unfold blend_lo, blend_hi;
    rewrite add_spec, mul_spec; change (Prim2SF blend_c2) with SFC2;
    [change (Prim2SF (- blend_c1)) with (S754_finite true MC1 (-53));
     change (Prim2SF (- b64 c_0_99)) with SFN99
    |change (Prim2SF blend_c1) with (S754_finite false MC1 (-53));
     change (Prim2SF (b64 c_0_99)) with SF99];
    exact A.
Qed.

(** What the comparisons with 0.99 and -0.99 say of a number. *)
Lemma SFcompare_neg (m1 m2 : positive) (e1 e2 : Z) :
  canonical m1 e1 -> canonical m2 e2 ->
  SFcompare (S754_finite true m1 e1) (S754_finite true m2 e2) =
  Some (dval (Zpos m2) e2 ?= dval (Zpos m1) e1).
Proof.
  intros C1 C2.
  change (S754_finite true m1 e1) with (SFopp (S754_finite false m1 e1)).
  change (S754_finite true m2 e2) with (SFopp (S754_finite false m2 e2)).
  rewrite SFcompare_opp. now apply SFcompare_pos.
Qed.

Lemma shape_inside (sc : bool) (t : float) :
  (if sc then PrimFloat.ltb (- b64 c_0_99) t else PrimFloat.leb (- b64 c_0_99) t)
    = true ->
  (if sc then PrimFloat.leb t (b64 c_0_99) else PrimFloat.ltb t (b64 c_0_99))
    = true ->
  match Prim2SF t with
  | S754_zero _ => True
  | S754_finite s m e =>
      if Bool.eqb s sc then dval (Zpos m) e < dval (Zpos M99) (-53)
      else dval (Zpos m) e <= dval (Zpos M99) (-53)
  | _ => False
  end.
Proof.
  destruct blend_canonical as (C99 & _).
  pose proof (Prim2SF_valid t) as Vt.
  assert (E1 : Prim2SF (- b64 c_0_99) = S754_finite true M99 (-53))
    by reflexivity.
  assert (E2 : Prim2SF (b64 c_0_99) = S754_finite false M99 (-53))
    by reflexivity.
  destruct sc; rewrite ltb_spec, leb_spec, E1, E2; clear E1 E2;
    unfold SFltb, SFleb;
    destruct (Prim2SF t) as [s|s| |s m e].
  1, 5: intros _ _; exact I.
  1, 2, 4, 5: try destruct s; simpl SFcompare; intros; discriminate.
  all: destruct (valid_finite s m e Vt) as (Hc & _ & _).
  all: destruct s; cbn [Bool.eqb];
    try rewrite (SFcompare_neg M99 m (-53) e C99 Hc);
    try rewrite (SFcompare_pos m M99 e (-53) Hc C99);
    try (simpl SFcompare; intros; discriminate);
    intros A B.
  all: repeat match goal with
    | H : context [?a ?= ?b] |- _ => destruct (Z.compare_spec a b)
    end; try discriminate; try lia.
Qed.

Lemma shape_beyond (sc : bool) (t : float) :
  (if sc then PrimFloat.ltb (b64 c_0_99) t else PrimFloat.ltb t (- b64 c_0_99))
    = true ->
  match Prim2SF t with
  | S754_infinity s | S754_finite s _ _ => s = negb sc
  | _ => False
  end.
Proof.
  assert (E1 : Prim2SF (- b64 c_0_99) = S754_finite true M99 (-53))
    by reflexivity.
  assert (E2 : Prim2SF (b64 c_0_99) = S754_finite false M99 (-53))
    by reflexivity.
  destruct sc; rewrite ltb_spec, ?E1, ?E2; clear E1 E2; unfold SFltb;
    destruct (Prim2SF t) as [s|s| |s m e]; try destruct s;
    try (intros _; reflexivity); simpl SFcompare; discriminate.
Qed.


Lemma leb_not_ltb (a b : float) :
  PrimFloat.leb a b = true -> PrimFloat.ltb b a = false.
Proof.
  rewrite ltb_spec, leb_spec. unfold SFltb, SFleb.
  rewrite (SFcompare_antisym (Prim2SF b) (Prim2SF a)).
  destruct (SFcompare (Prim2SF a) (Prim2SF b)) as [[| |]|]; cbn;
    congruence.
Qed.

Lemma ltb_leb (a b : float) :
  PrimFloat.ltb a b = true -> PrimFloat.leb a b = true.
Proof.
  rewrite ltb_spec, leb_spec. unfold SFltb, SFleb.
  destruct (SFcompare (Prim2SF a) (Prim2SF b)) as [[| |]|]; congruence.
Qed.

Lemma within_clip_iff (x : float) :
  within_clip (FO := Binary64) x = true <->
  PrimFloat.leb (PrimFloat.opp (b64 c_0_99)) x = true /\ PrimFloat.leb x (b64 c_0_99) = true.
Proof.
  unfold within_clip. cbn [fge fle fneg lit Binary64].
  apply andb_true_iff.
Qed.

Lemma beyond_hi (v : float) :
  PrimFloat.ltb (b64 c_0_99) v = true ->
  PrimFloat.ltb (PrimFloat.opp (b64 c_0_99)) v = true /\ PrimFloat.ltb v (b64 c_0_99) = false.
Proof.
  intros H. split; [|apply leb_not_ltb, ltb_leb, H].
  pose proof (shape_beyond true v H) as S. revert S.
  assert (E1 : Prim2SF (PrimFloat.opp (b64 c_0_99)) = S754_finite true M99 (-53))
    by reflexivity.
  rewrite ltb_spec, E1. unfold SFltb.
  destruct (Prim2SF v) as [s|s| |s m e]; try contradiction;
    intros ->; reflexivity.
Qed.

Lemma beyond_lo (v : float) :
  PrimFloat.ltb v (PrimFloat.opp (b64 c_0_99)) = true ->
  PrimFloat.ltb v (b64 c_0_99) = true /\ PrimFloat.ltb (PrimFloat.opp (b64 c_0_99)) v = false.
Proof.
  intros H. split; [|apply leb_not_ltb, ltb_leb, H].
  pose proof (shape_beyond false v H) as S. revert S.
  assert (E2 : Prim2SF (b64 c_0_99) = S754_finite false M99 (-53))
    by reflexivity.
  rewrite ltb_spec, E2. unfold SFltb.
  destruct (Prim2SF v) as [s|s| |s m e]; try contradiction;
    intros ->; reflexivity.
Qed.

Lemma within_not_nan (x : float) :
  within_clip (FO := Binary64) x = true -> is_nan x = false.
Proof.
  intros H. apply within_clip_iff in H. destruct H as [H _].
  destruct (is_nan x) eqn:N; [|reflexivity].
  apply is_nan_spec in N. rewrite leb_spec, N in H. discriminate H.
Qed.

(** The clipper keeps its result between -0.99 and 0.99 in binary64,
    whatever number comes in, when its memory is between them. *)
Lemma adclip_binary64 (v l : float) :
  is_nan v = false ->
  within_clip (FO := Binary64) l = true ->
  within_clip (FO := Binary64) (fst (adclip (FO := Binary64) v l)) = true.
Proof.
  intros Nv Wl. rewrite adclip_binary64_eq. cbv zeta.
  assert (WK : within_clip (FO := Binary64) (b64 c_0_99) = true)
    by reflexivity.
  assert (WN : within_clip (FO := Binary64) (PrimFloat.opp (b64 c_0_99)) = true)
    by reflexivity.
  destruct (PrimFloat.ltb (b64 c_0_99) v) eqn:Ehi.
  - destruct (beyond_hi v Ehi) as [A B]. rewrite A, B.
    assert (W1 : within_clip (FO := Binary64)
                   (if PrimFloat.leb (b64 c_0_99) l then b64 c_0_99 else l)
                 = true)
      by (destruct (PrimFloat.leb (b64 c_0_99) l); assumption).
    set (l1 := if PrimFloat.leb (b64 c_0_99) l then b64 c_0_99 else l) in *.
    assert (W2 : PrimFloat.leb (PrimFloat.opp (b64 c_0_99))
                   (if PrimFloat.leb l1 (PrimFloat.opp (b64 c_0_99)) then blend_lo v else l1)
                 = true).
    { destruct (PrimFloat.leb l1 (PrimFloat.opp (b64 c_0_99))).
      - exact (blend_prim_far true v (shape_beyond true v Ehi)).
      - apply within_clip_iff in W1. apply W1. }
    set (l2 := if PrimFloat.leb l1 (PrimFloat.opp (b64 c_0_99)) then blend_lo v else l1) in *.
    assert (W3 : within_clip (FO := Binary64)
                   (if PrimFloat.ltb l2 (b64 c_0_99)
                    then blend_hi l2 else b64 c_0_99) = true).
    { destruct (PrimFloat.ltb l2 (b64 c_0_99)) eqn:E; [|exact WK].
      exact (blend_prim false l2 (shape_inside false l2 W2 E)). }
    set (v1 := if PrimFloat.ltb l2 (b64 c_0_99)
               then blend_hi l2 else b64 c_0_99) in *.
    apply within_clip_iff in W3.
    rewrite (leb_not_ltb _ _ (proj1 W3)).
    apply within_clip_iff. exact W3.
  - destruct (PrimFloat.ltb v (PrimFloat.opp (b64 c_0_99))) eqn:Elo.
    + destruct (beyond_lo v Elo) as [A B]. rewrite A, B.
      assert (W1 : PrimFloat.leb
                     (if PrimFloat.leb (b64 c_0_99) l then blend_hi v else l)
                     (b64 c_0_99) = true).
      { destruct (PrimFloat.leb (b64 c_0_99) l).
        - exact (blend_prim_far false v (shape_beyond false v Elo)).
        - apply within_clip_iff in Wl. apply Wl. }
      set (l1 := if PrimFloat.leb (b64 c_0_99) l then blend_hi v else l) in *.
      assert (W2 : PrimFloat.leb
                     (if PrimFloat.leb l1 (PrimFloat.opp (b64 c_0_99))
                      then PrimFloat.opp (b64 c_0_99) else l1) (b64 c_0_99) = true).
      { destruct (PrimFloat.leb l1 (PrimFloat.opp (b64 c_0_99))); [|exact W1].
        apply within_clip_iff in WN. apply WN. }
      set (l2 := if PrimFloat.leb l1 (PrimFloat.opp (b64 c_0_99))
                 then PrimFloat.opp (b64 c_0_99) else l1) in *.
      destruct (PrimFloat.ltb (PrimFloat.opp (b64 c_0_99)) l2) eqn:E; [|exact WN].
      exact (blend_prim true l2 (shape_inside true l2 E W2)).
    + apply within_clip_iff.
      split; apply not_ltb_leb; auto;
        apply within_not_nan; assumption.
Qed.

(** A run of the clipper from a memory within the clamp, over numbers:
    the memory it ends with and every result are within it. *)
Lemma adclip_run_binary64 (input : list float) :
  forall l : float,
    forallb (fun v => negb (is_nan v)) input = true ->
    within_clip (FO := Binary64) l = true ->
    within_clip (FO := Binary64)
      (fst (adclip_run (FO := Binary64) l input)) = true /\
    forallb (within_clip (FO := Binary64))
      (snd (adclip_run (FO := Binary64) l input)) = true.
Proof.
  induction input as [|s rest IH]; intros l Hn Wl; cbn [adclip_run].
  - split; [exact Wl | reflexivity].
  - cbn [forallb] in Hn. apply andb_true_iff in Hn. destruct Hn as [Hs Hn].
    apply negb_true_iff in Hs.
    pose proof (adclip_binary64 s l Hs Wl) as Ho.
    pose proof (adclip_returns_memory (FO := Binary64) s l) as Hm.
    destruct (adclip s l) as [o l1]. cbn [fst snd] in *. subst l1.
    destruct (IH o Hn Ho) as [A B].
    destruct (adclip_run o rest) as [final os]. cbn [fst snd forallb] in *.
    split; [exact A | now rewrite Ho, B].
Qed.


(** Within the clamp is strictly between -1 and 1. *)
Lemma within_clip_unit (o : float) :
  within_clip (FO := Binary64) o = true ->
  PrimFloat.ltb (-1)%float o = true /\ PrimFloat.ltb o 1%float = true.
Proof.
  intros W. apply within_clip_iff in W. destruct W as [L U].
  destruct blend_canonical as (C99 & _).
  pose proof (Prim2SF_valid o) as Vo.
  assert (E1 : Prim2SF (PrimFloat.opp (b64 c_0_99)) = S754_finite true M99 (-53))
    by reflexivity.
  assert (E2 : Prim2SF (b64 c_0_99) = S754_finite false M99 (-53))
    by reflexivity.
  assert (E3 : Prim2SF (-1)%float = S754_finite true 4503599627370496 (-52))
    by reflexivity.
  assert (E4 : Prim2SF 1%float = S754_finite false 4503599627370496 (-52))
    by reflexivity.
  assert (C1 : canonical 4503599627370496 (-52)) by reflexivity.
  assert (M : dval (Zpos M99) (-53) < dval 4503599627370496 (-52))
    by (vm_compute; reflexivity).
  rewrite leb_spec in L, U. rewrite E1 in L. rewrite E2 in U.
  rewrite !ltb_spec, E3, E4.
  clear E1 E2 E3 E4. unfold SFleb, SFltb in *.
  destruct (Prim2SF o) as [s|s| |s m e].
  - split; reflexivity.
  - destruct s; [vm_compute in L; discriminate L | vm_compute in U; discriminate U].
  - discriminate L.
  - destruct (valid_finite s m e Vo) as (Hc & _ & _).
    destruct s.
    + split; [|reflexivity].
      rewrite (SFcompare_neg M99 m (-53) e C99 Hc) in L.
      rewrite (SFcompare_neg 4503599627370496 m (-52) e C1 Hc).
      destruct (Z.compare_spec (dval (Zpos m) e) (dval (Zpos M99) (-53)));
        try discriminate L;
        destruct (Z.compare_spec (dval (Zpos m) e) (dval 4503599627370496 (-52)));
        try reflexivity; lia.
    + split; [reflexivity|].
      rewrite (SFcompare_pos m M99 e (-53) Hc C99) in U.
      rewrite (SFcompare_pos m 4503599627370496 e (-52) Hc C1).
      destruct (Z.compare_spec (dval (Zpos m) e) (dval (Zpos M99) (-53)));
        try discriminate U;
        destruct (Z.compare_spec (dval (Zpos m) e) (dval 4503599627370496 (-52)));
        try reflexivity; lia.
Qed.


(** With NaN for memory the clipper is the hard clamp. *)
Lemma adclip_nan_memory (v : float) :
  fst (adclip (FO := Binary64) v nan) = hardclip (FO := Binary64) v.
Proof.
  rewrite adclip_binary64_eq. cbv zeta.
  change (PrimFloat.leb (b64 c_0_99) nan) with false. cbv iota.
  change (PrimFloat.leb nan (PrimFloat.opp (b64 c_0_99))) with false. cbv iota.
  change (PrimFloat.ltb nan (b64 c_0_99)) with false.
  change (PrimFloat.ltb (PrimFloat.opp (b64 c_0_99)) nan) with false. cbv iota.
  unfold hardclip. cbn [fgt flt fneg lit Binary64].
  destruct (PrimFloat.ltb (b64 c_0_99) v); [|reflexivity].
  change (PrimFloat.ltb (b64 c_0_99) (PrimFloat.opp (b64 c_0_99))) with false.
  reflexivity.
Qed.



Section Memory64.
Context {LM : Libm float}.




End Memory64.


(** ** Sign change in binary64 *)

Lemma round_aux_negb (s : bool) (m e : Z) (l : location) :
  binary_round_aux prec emax (negb s) m e l =
  SFopp (binary_round_aux prec emax s m e l).
Proof.
  unfold binary_round_aux.
  destruct (shr_fexp prec emax m e l) as [mrs' e'].
  destruct (shr_fexp prec emax _ e' loc_Exact) as [mrs'' e''].
  destruct (shr_m mrs''); [reflexivity| |reflexivity].
  destruct (e'' <=? emax - prec); reflexivity.
Qed.

Lemma xorb_negb_l (a b : bool) : xorb (negb a) b = negb (xorb a b).
Proof. destruct a, b; reflexivity. Qed.

Lemma SFmul_opp_l (x y : spec_float) :
  SFmul prec emax (SFopp x) y = SFopp (SFmul prec emax x y).
Proof.
  destruct x as [sx|sx| |sx mx ex], y as [sy|sy| |sy my ey];
    cbn [SFmul SFopp]; rewrite ?xorb_negb_l; try reflexivity.
  apply round_aux_negb.
Qed.

Lemma SFdiv_opp_l (x y : spec_float) :
  SFdiv prec emax (SFopp x) y = SFopp (SFdiv prec emax x y).
Proof.
  destruct x as [sx|sx| |sx mx ex], y as [sy|sy| |sy my ey];
    cbn [SFdiv SFopp]; rewrite ?xorb_negb_l; try reflexivity.
  destruct (SFdiv_core_binary prec emax (Zpos mx) ex (Zpos my) ey)
    as [[mz ez] lz].
  apply round_aux_negb.
Qed.

Lemma SFopp_involutive (x : spec_float) : SFopp (SFopp x) = x.
Proof. destruct x as [s|s| |s m e]; cbn; rewrite ?negb_involutive; reflexivity. Qed.

Lemma SFabs_opp (x : spec_float) : SFabs (SFopp x) = SFabs x.
Proof. destruct x; reflexivity. Qed.

Lemma opp_involutive (x : float) : PrimFloat.opp (PrimFloat.opp x) = x.
Proof. apply Prim2SF_inj. rewrite !opp_spec. apply SFopp_involutive. Qed.

Lemma mul_opp_l (x y : float) :
  PrimFloat.mul (PrimFloat.opp x) y = PrimFloat.opp (PrimFloat.mul x y).
Proof.
  apply Prim2SF_inj. rewrite opp_spec, !mul_spec, opp_spec.
  apply SFmul_opp_l.
Qed.

Lemma div_opp_l (x y : float) :
  PrimFloat.div (PrimFloat.opp x) y = PrimFloat.opp (PrimFloat.div x y).
Proof.
  apply Prim2SF_inj. rewrite opp_spec, !div_spec, opp_spec.
  apply SFdiv_opp_l.
Qed.

Lemma abs_opp (x : float) : PrimFloat.abs (PrimFloat.opp x) = PrimFloat.abs x.
Proof.
  apply Prim2SF_inj. rewrite !abs_spec, opp_spec. apply SFabs_opp.
Qed.

Lemma ltb_opp (x y : float) :
  PrimFloat.ltb (PrimFloat.opp x) (PrimFloat.opp y) = PrimFloat.ltb y x.
Proof.
  rewrite !ltb_spec, !opp_spec. unfold SFltb. now rewrite SFcompare_opp.
Qed.

Lemma ltb_opp_r (x y : float) :
  PrimFloat.ltb x (PrimFloat.opp y) = PrimFloat.ltb y (PrimFloat.opp x).
Proof. rewrite <- (opp_involutive x) at 1. apply ltb_opp. Qed.

Lemma ltb_opp_l (x y : float) :
  PrimFloat.ltb (PrimFloat.opp x) y = PrimFloat.ltb (PrimFloat.opp y) x.
Proof. rewrite <- (opp_involutive y) at 1. apply ltb_opp. Qed.

(** Zero or not, as [==] decides it, is the same for a number and its
    magnitude. *)
Lemma eqb_abs_zero (x : float) :
  PrimFloat.eqb (PrimFloat.abs x) 0%float = PrimFloat.eqb x 0%float.
Proof.
  rewrite !eqb_spec, abs_spec.
  change (Prim2SF 0%float) with (S754_zero false).
  destruct (Prim2SF x) as [s|s| |s m e]; try reflexivity;
    destruct s; reflexivity.
Qed.

Lemma eqb_opp_zero (x : float) :
  PrimFloat.eqb (PrimFloat.opp x) 0%float = PrimFloat.eqb x 0%float.
Proof.
  rewrite !eqb_spec, opp_spec.
  change (Prim2SF 0%float) with (S754_zero false).
  destruct (Prim2SF x) as [s|s| |s m e]; try reflexivity;
    destruct s; reflexivity.
Qed.

Lemma spiral_saturate_binary64_eq (LM : Libm float) (x : float) :
  spiral_saturate x =
  let i := spiral_clamp x in
  if PrimFloat.eqb (PrimFloat.abs i) 0%float then 0%float
  else PrimFloat.div (fsin (PrimFloat.mul i (PrimFloat.abs i)))
                     (PrimFloat.abs i).
Proof. reflexivity. Qed.

Lemma beyond_spiral (x : float) :
  PrimFloat.ltb (b64 c_1_2533141373155) x = true ->
  PrimFloat.ltb x (PrimFloat.opp (b64 c_1_2533141373155)) = false.
Proof.
  rewrite !ltb_spec.
  assert (E1 : Prim2SF (b64 c_1_2533141373155) =
               S754_finite false 5644425081792260 (-52)) by reflexivity.
  assert (E2 : Prim2SF (PrimFloat.opp (b64 c_1_2533141373155)) =
               S754_finite true 5644425081792260 (-52)) by reflexivity.
  rewrite E1, E2. clear E1 E2. unfold SFltb.
  destruct (Prim2SF x) as [s|s| |s m e]; try destruct s;
    try (intros _; reflexivity); cbn [SFcompare]; intros H; discriminate H.
Qed.

Lemma spiral_clamp_opp (x : float) :
  spiral_clamp (PrimFloat.opp x) = PrimFloat.opp (spiral_clamp x).
Proof.
  unfold spiral_clamp. cbv zeta.
  assert (Cc : PrimFloat.ltb (b64 c_1_2533141373155)
                 (PrimFloat.opp (b64 c_1_2533141373155)) = false)
    by reflexivity.
  pose proof (opp_involutive (b64 c_1_2533141373155)) as Co.
  rewrite (ltb_opp_r (b64 c_1_2533141373155) x).
  destruct (PrimFloat.ltb (b64 c_1_2533141373155) x) eqn:Hi.
  - rewrite (beyond_spiral x Hi), ltb_opp, Hi, Cc. reflexivity.
  - destruct (PrimFloat.ltb x (PrimFloat.opp (b64 c_1_2533141373155))) eqn:Lo.
    + rewrite Cc. symmetry. exact Co.
    + rewrite ltb_opp, Hi. reflexivity.
Qed.

Lemma spiral_clamp_zero (x : float) :
  PrimFloat.eqb (spiral_clamp x) 0%float = PrimFloat.eqb x 0%float.
Proof.
  unfold spiral_clamp. cbv zeta.
  destruct (PrimFloat.ltb (b64 c_1_2533141373155) x) eqn:Hi.
  - change (PrimFloat.ltb (b64 c_1_2533141373155)
              (PrimFloat.opp (b64 c_1_2533141373155))) with false.
    cbv iota. symmetry.
    revert Hi. rewrite ltb_spec, !eqb_spec.
    assert (E1 : Prim2SF (b64 c_1_2533141373155) =
                 S754_finite false 5644425081792260 (-52)) by reflexivity.
    rewrite E1. clear E1. change (Prim2SF 0%float) with (S754_zero false).
    unfold SFltb, SFeqb.
    destruct (Prim2SF x) as [s|s| |s m e]; try destruct s;
      try reflexivity; cbn [SFcompare]; intros H; discriminate H.
  - destruct (PrimFloat.ltb x (PrimFloat.opp (b64 c_1_2533141373155))) eqn:Lo;
      [|reflexivity].
    symmetry. revert Lo. rewrite ltb_spec, !eqb_spec.
    assert (E2 : Prim2SF (PrimFloat.opp (b64 c_1_2533141373155)) =
                 S754_finite true 5644425081792260 (-52)) by reflexivity.
    rewrite E2. clear E2.
    change (Prim2SF (PrimFloat.opp (b64 c_1_2533141373155)))
      with (S754_finite true 5644425081792260 (-52)).
    change (Prim2SF 0%float) with (S754_zero false).
    unfold SFltb, SFeqb.
    destruct (Prim2SF x) as [s|s| |s m e]; try destruct s;
      try reflexivity; cbn [SFcompare]; intros H; discriminate H.
Qed.

(** In binary64, with a sine that is odd at every number, the
    saturator is odd at every number but zero, NaN included; at zero of
    either sign it returns +0. *)
Theorem spiral_saturate_odd_binary64 (LM : Libm float) (x : float) :
  (forall t : float, fsin (PrimFloat.opp t) = PrimFloat.opp (fsin t)) ->
  (PrimFloat.eqb x 0%float = false ->
   spiral_saturate (PrimFloat.opp x) = PrimFloat.opp (spiral_saturate x)) /\
  (PrimFloat.eqb x 0%float = true -> spiral_saturate x = 0%float).
Proof.
  intros Hodd. rewrite !spiral_saturate_binary64_eq. cbv zeta.
  rewrite spiral_clamp_opp, abs_opp, eqb_abs_zero, spiral_clamp_zero.
  split; intros Hz; rewrite Hz; [|reflexivity].
  rewrite mul_opp_l, Hodd, div_opp_l. reflexivity.
Qed.


(** ** NaN in the rollers; the clipper below its threshold *)

Lemma add_nan_r (x : float) : PrimFloat.add x nan = nan.
Proof.
  apply Prim2SF_inj. rewrite add_spec.
  change (Prim2SF nan) with S754_nan.
  destruct (Prim2SF x) as [s|s| |s m e]; reflexivity.
Qed.

Lemma sub_nan_r (x : float) : PrimFloat.sub x nan = nan.
Proof.
  apply Prim2SF_inj. rewrite sub_spec.
  change (Prim2SF nan) with S754_nan.
  destruct (Prim2SF x) as [s|s| |s m e]; reflexivity.
Qed.

(** A roller that holds NaN holds NaN after any run of the loop. *)
Lemma rollers_run_nan (roll : float) (input : list float) :
  forall (mA mB : float) (fl : Z),
    (mA = nan ->
     fst (fst (rollers_run (FO := Binary64) roll mA mB fl input)) = nan) /\
    (mB = nan ->
     snd (fst (rollers_run (FO := Binary64) roll mA mB fl input)) = nan).
Proof.
  induction input as [|s rest IH]; intros mA mB fl; cbn [rollers_run].
  - cbn. tauto.
  - cbn [fadd fmul fsub Binary64].
    destruct (Z.eqb fl 0); split; intros ->; apply IH;
      rewrite ?mul_nan_l, ?add_nan_l; reflexivity.
Qed.

(** A NaN sample puts NaN in the roller of the phase that takes it. *)
Lemma rollers_run_nan_sample (roll : float) (rest : list float)
    (mA mB : float) (fl : Z) :
  let r := rollers_run (FO := Binary64) roll mA mB fl (nan :: rest) in
  (if Z.eqb fl 0 then snd (fst r) else fst (fst r)) = nan.
Proof.
  cbv zeta. cbn [rollers_run fadd fmul fsub lit Binary64].
  rewrite !mul_nan_l, !add_nan_r.
  destruct (Z.eqb fl 0); apply rollers_run_nan; reflexivity.
Qed.

Section Sticky.
Context {LM : Libm float}.

Lemma flip_step_nan_roller (roll hbf : float) (x : t_tape float) (g : float) :
  mid_of (active x) x = nan -> snd (flip_step roll hbf x g) = nan.
Proof.
  unfold flip_step, active, phase_update.
  destruct (Z.eqb (flip x) 0); cbn [mid_of snd]; intros ->;
    cbn [fadd fmul fsub Binary64];
    rewrite mul_nan_l, add_nan_l; apply sub_nan_r.
Qed.

End Sticky.

(** NaN sticks: a NaN sample leaves NaN in the roller of the phase that
    processed it; a roller that holds NaN holds NaN after every later
    block, whatever the samples; and for a sample that finds NaN in the
    roller of its phase [HighsSample] is NaN, for which lines 200-201
    leave the sample as it is.  For every <math.h>. *)
Theorem nan_sticks_in_rollers (LM : Libm float) (x : t_tape float) :
  (forall rest : list float,
     mid_of (active x) (fst (tape_perform x (nan :: rest))) = nan) /\
  (forall input : list float,
     (iirMidRollerA x = nan ->
      iirMidRollerA (fst (tape_perform x input)) = nan) /\
     (iirMidRollerB x = nan ->
      iirMidRollerB (fst (tape_perform x input)) = nan)) /\
  (forall roll hbf g : float,
     mid_of (active x) x = nan ->
     snd (flip_step roll hbf x g) = nan /\
     soften (snd (flip_step roll hbf x g)) g = g).
Proof.
  split; [|split].
  - intros rest.
    destruct (tape_perform_rollers x (nan :: rest)) as (EA & EB & _).
    pose proof (rollers_run_nan_sample (RollAmount (x_sr x)) rest
                  (iirMidRollerA x) (iirMidRollerB x) (flip x)) as H.
    cbv zeta in H. unfold active.
    destruct (Z.eqb (flip x) 0); cbn [mid_of]; [rewrite EB | rewrite EA];
      exact H.
  - intros input.
    destruct (tape_perform_rollers x input) as (EA & EB & _).
    rewrite EA, EB. apply rollers_run_nan.
  - intros roll hbf g H.
    rewrite (flip_step_nan_roller roll hbf x g H).
    split; [reflexivity | apply soften_nan].
Qed.




(** ** Signal vectors, blocks and coefficient slots *)

Section BufferFacts.
Context {F : Type} {FO : FloatOps F} {LM : Libm F}.

Lemma length_poke (i : nat) (v : F) (mem : list F) :
  length (poke i v mem) = length mem.
Proof.
  revert i. induction mem as [|h t IH]; intros [|j]; cbn; auto.
Qed.

Lemma firstn_skipn_cons (d : F) (k : nat) (mem : list F) :
  forall i : nat, (i < length mem)%nat ->
    firstn (S k) (skipn i mem) = nth i mem d :: firstn k (skipn (S i) mem).
Proof.
  induction mem as [|h t IH]; intros i Hi; cbn [length] in Hi; [lia|].
  destruct i as [|j].
  - reflexivity.
  - cbn [skipn nth]. apply IH. lia.
Qed.

Lemma skipn_poke_below (v : F) (mem : list F) :
  forall i j : nat, (i < j)%nat -> skipn j (poke i v mem) = skipn j mem.
Proof.
  induction mem as [|h t IH]; intros i j Hij.
  - destruct i; reflexivity.
  - destruct j as [|j]; [lia|]. destruct i as [|i]; cbn [poke skipn].
    + reflexivity.
    + apply IH. lia.
Qed.

Lemma firstn_poke (v : F) (mem : list F) :
  forall i : nat, (i < length mem)%nat ->
    firstn (S i) (poke i v mem) = firstn i mem ++ [v].
Proof.
  induction mem as [|h t IH]; intros i Hi; cbn [length] in Hi; [lia|].
  destruct i as [|i]; cbn [poke firstn app].
  - reflexivity.
  - f_equal. apply IH. lia.
Qed.

Lemma firstn_poke_beyond (v : F) (mem : list F) :
  forall i k : nat, (k <= i)%nat ->
    firstn k (poke i v mem) = firstn k mem.
Proof.
  induction mem as [|h t IH]; intros i k Hk.
  - destruct i; reflexivity.
  - destruct k as [|k]; [reflexivity|]. destruct i as [|i]; [lia|].
    cbn [poke firstn]. f_equal. apply IH. lia.
Qed.

Lemma skipn_poke_beyond (v : F) (mem : list F) :
  forall i j : nat, (j <= i)%nat ->
    skipn j (poke i v mem) = poke (i - j) v (skipn j mem).
Proof.
  induction mem as [|h t IH]; intros i j Hj.
  - replace (poke i v []) with (@nil F) by (destruct i; reflexivity).
    rewrite skipn_nil. destruct (i - j)%nat; reflexivity.
  - destruct j as [|j].
    + cbn [skipn]. now rewrite Nat.sub_0_r.
    + destruct i as [|i]; [lia|]. cbn [poke skipn Nat.sub]. apply IH. lia.
Qed.

Lemma tape_loop_mem_spec (roll hbf : F) (n : nat) :
  forall (x : t_tape F) (mem : list F) (inp out : nat),
    (out <= inp \/ inp + n <= out)%nat ->
    (inp + n <= length mem)%nat -> (out + n <= length mem)%nat ->
    tape_loop_mem roll hbf x mem inp out n =
    (fst (tape_loop roll hbf x (firstn n (skipn inp mem))),
     firstn out mem ++
     snd (tape_loop roll hbf x (firstn n (skipn inp mem))) ++
     skipn (out + n) mem).
Proof.
  induction n as [|k IH]; intros x mem inp out Hio Hi Ho.
  - cbn [tape_loop_mem firstn tape_loop fst snd app].
    rewrite Nat.add_0_r, firstn_skipn. reflexivity.
  - cbn [tape_loop_mem].
    rewrite (firstn_skipn_cons (lit c_0) k mem inp) by lia.
    cbn [tape_loop].
    destruct (tape_sample roll hbf x (nth inp mem (lit c_0))) as [x1 o].
    rewrite IH by (rewrite ?length_poke; lia).
    assert (E : firstn k (skipn (S inp) (poke out o mem)) =
                firstn k (skipn (S inp) mem)).
    { destruct Hio as [H | H].
      - rewrite skipn_poke_below by lia. reflexivity.
      - rewrite skipn_poke_beyond by lia.
        apply firstn_poke_beyond. lia. }
    rewrite E.
    destruct (tape_loop roll hbf x1 (firstn k (skipn (S inp) mem)))
      as [x2 os].
    cbn [fst snd]. f_equal.
    rewrite firstn_poke by lia.
    rewrite skipn_poke_below by lia.
    rewrite <- app_assoc. cbn [app].
    replace (S out + k)%nat with (out + S k)%nat by lia. reflexivity.
Qed.

Lemma store_coefs_same (x y : t_tape F) :
  same_but_coefs x y -> store_coefs x = store_coefs y.
Proof.
  destruct x as [sr mA mB hA hB [a0 a1 a2 a3 a4 a5 a6 a7 a8]
                 [b0 b1 b2 b3 b4 b5 b6 b7 b8] l f].
  destruct y as [sr' mA' mB' hA' hB' [a0' a1' a2' a3' a4' a5' a6' a7' a8']
                 [b0' b1' b2' b3' b4' b5' b6' b7' b8'] l' f'].
  unfold same_but_coefs, store_coefs, set_coefs. cbn.
  intros (-> & -> & -> & -> & -> & -> & -> & -> & -> & -> & -> & -> & -> &
          -> & ->).
  reflexivity.
Qed.

Lemma tape_loop_length (roll hbf : F) (input : list F) :
  forall x, length (snd (tape_loop roll hbf x input)) = length input.
Proof.
  induction input as [|s rest IH]; intros x; cbn [tape_loop]; [reflexivity|].
  destruct (tape_sample roll hbf x s) as [x1 o]. specialize (IH x1).
  destruct (tape_loop roll hbf x1 rest) as [x2 os]. cbn in *. now rewrite IH.
Qed.

Lemma tape_loop_slots (roll hbf : F) (input : list F) :
  forall x,
    let x' := fst (tape_loop roll hbf x input) in
    bq0 (biquadA x') = bq0 (biquadA x) /\ bq1 (biquadA x') = bq1 (biquadA x) /\
    bq0 (biquadB x') = bq0 (biquadB x) /\ bq1 (biquadB x') = bq1 (biquadB x).
Proof.
  induction input as [|s rest IH]; intros x; cbn [tape_loop].
  - cbn. tauto.
  - assert (H1 : let x1 := fst (tape_sample roll hbf x s) in
      bq0 (biquadA x1) = bq0 (biquadA x) /\ bq1 (biquadA x1) = bq1 (biquadA x) /\
      bq0 (biquadB x1) = bq0 (biquadB x) /\ bq1 (biquadB x1) = bq1 (biquadB x)).
    { unfold tape_sample, pre_clip, flip_step, phase_update, adclip.
      destruct (Z.eqb (flip x) 0); cbn; tauto. }
    destruct (tape_sample roll hbf x s) as [x1 o]. cbn [fst] in H1.
    specialize (IH x1). cbv zeta in *.
    destruct (tape_loop roll hbf x1 rest) as [x2 os]. cbn [fst] in *.
    destruct IH as (-> & -> & -> & ->). exact H1.
Qed.

End BufferFacts.

(** In place: when the host hands [tape_perform] an output vector that
    starts at or before the input vector, the same vector in
    particular, or one that lies after it, the [n] cells from [out] on
    receive what the block of the [n] cells from [in] on gives, the
    other cells are kept, and the object is left as by that block. *)
Theorem tape_perform_in_place {F : Type} {FO : FloatOps F} {LM : Libm F}
    (x : t_tape F) (mem : list F) (inp out n : nat) :
  (out <= inp \/ inp + n <= out)%nat ->
  (inp + n <= length mem)%nat -> (out + n <= length mem)%nat ->
  let block := firstn n (skipn inp mem) in
  tape_perform_mem x mem inp out n =
  (fst (tape_perform x block),
   firstn out mem ++ snd (tape_perform x block) ++ skipn (out + n) mem) /\
  length (snd (tape_perform x block)) = n.
Proof.
  intros Hio Hi Ho. cbv zeta. split.
  - unfold tape_perform_mem, tape_perform. now apply tape_loop_mem_spec.
  - unfold tape_perform. rewrite tape_loop_length, length_firstn, length_skipn.
    lia.
Qed.

Lemma tape_perform_in_place_witness :
  let x := tape_dsp 44100%R tape_new in
  let mem := [1%R; 0%R; (-1)%R] in
  let block := firstn 3 (skipn 0 mem) in
  tape_perform_mem x mem 0 0 3 =
  (fst (tape_perform x block),
   firstn 0 mem ++ snd (tape_perform x block) ++ skipn (0 + 3) mem) /\
  length (snd (tape_perform x block)) = 3%nat.
Proof.
  exact (tape_perform_in_place (tape_dsp 44100%R tape_new)
           [1%R; 0%R; (-1)%R] 0 0 3
           (or_introl (Nat.le_refl 0)) (Nat.le_refl 3) (Nat.le_refl 3)).
Defined.

(** Any two ways of cutting a buffer into blocks, of any sizes, empty
    ones included, give the same output and leave the same object. *)
Theorem block_partition_invariance {F : Type} {FO : FloatOps F}
    {LM : Libm F} (x : t_tape F) (blocks blocks' : list (list F)) :
  blocks <> [] -> blocks' <> [] -> concat blocks = concat blocks' ->
  tape_blocks x blocks = tape_blocks x blocks' /\
  tape_blocks x blocks = tape_perform x (concat blocks).
Proof.
  intros H1 H2 E.
  rewrite (tape_blocks_concat blocks x H1), (tape_blocks_concat blocks' x H2).
  now rewrite E.
Qed.

Lemma block_partition_invariance_witness :
  tape_blocks (tape_dsp 44100%R tape_new) [[1%R]; []; [0%R; 1%R]] =
  tape_blocks (tape_dsp 44100%R tape_new) [[1%R; 0%R]; [1%R]].
Proof.
  refine (proj1 (block_partition_invariance (tape_dsp 44100%R tape_new)
                   [[1%R]; []; [0%R; 1%R]] [[1%R; 0%R]; [1%R]] _ _ _)).
  - discriminate.
  - discriminate.
  - reflexivity.
Defined.

(** [tape_perform] never reads the coefficient slots it finds: objects
    that differ only there give the same output and are left equal; and
    it never writes [x_sr] nor slots 0 and 1 of the biquads. *)
Theorem stale_coefficients_ignored {F : Type} {FO : FloatOps F}
    {LM : Libm F} (x y : t_tape F) (input : list F) :
  same_but_coefs x y ->
  tape_perform x input = tape_perform y input /\
  x_sr (fst (tape_perform x input)) = x_sr x /\
  bq0 (biquadA (fst (tape_perform x input))) = bq0 (biquadA x) /\
  bq1 (biquadA (fst (tape_perform x input))) = bq1 (biquadA x) /\
  bq0 (biquadB (fst (tape_perform x input))) = bq0 (biquadB x) /\
  bq1 (biquadB (fst (tape_perform x input))) = bq1 (biquadB x).
Proof.
  intros Hs. split; [|split].
  - unfold tape_perform. rewrite (store_coefs_same x y Hs).
    destruct Hs as (-> & _). reflexivity.
  - apply tape_perform_sr.
  - exact (tape_loop_slots (RollAmount (x_sr x)) (HeadBumpFreq (x_sr x))
             input (store_coefs x)).
Qed.

Lemma stale_coefficients_ignored_witness :
  tape_perform (tape_dsp 44100%R tape_new) [1%R] =
  tape_perform (store_coefs (tape_dsp 44100%R tape_new)) [1%R].
Proof.
  refine (proj1 (stale_coefficients_ignored (tape_dsp 44100%R tape_new)
                   (store_coefs (tape_dsp 44100%R tape_new)) [1%R] _)).
  repeat split.
Defined.


(** ** The clipper and the saturator in binary64 *)

(** Beyond the clamp the binary64 saturator is constant too, for every
    <math.h>. *)
Theorem spiral_saturate_plateau_binary64 (LM : Libm float) (x : float) :
  (PrimFloat.ltb (b64 c_1_2533141373155) x = true ->
   spiral_saturate x = spiral_saturate (b64 c_1_2533141373155)) /\
  (PrimFloat.ltb x (PrimFloat.opp (b64 c_1_2533141373155)) = true ->
   spiral_saturate x =
   spiral_saturate (PrimFloat.opp (b64 c_1_2533141373155))).
Proof.
  rewrite !spiral_saturate_binary64_eq. cbv zeta.
  assert (Ec : spiral_clamp (b64 c_1_2533141373155) = b64 c_1_2533141373155)
    by reflexivity.
  assert (En : spiral_clamp (PrimFloat.opp (b64 c_1_2533141373155)) =
               PrimFloat.opp (b64 c_1_2533141373155)) by reflexivity.
  rewrite Ec, En. split; intros H.
  - assert (E : spiral_clamp x = b64 c_1_2533141373155).
    { unfold spiral_clamp. cbv zeta. rewrite H. reflexivity. }
    rewrite E. reflexivity.
  - assert (E : spiral_clamp x = PrimFloat.opp (b64 c_1_2533141373155)).
    { unfold spiral_clamp. cbv zeta.
      destruct (PrimFloat.ltb (b64 c_1_2533141373155) x) eqn:Hi.
      - pose proof (beyond_spiral x Hi). congruence.
      - rewrite H. reflexivity. }
    rewrite E. reflexivity.
Qed.

(** The binary64 clipper on numbers: from a memory within the clamp,
    fed any sequence without NaN, infinities included, it ends on a
    memory within the clamp and every value it returns is within the
    clamp, so strictly between -1 and 1. *)
Theorem adclip_run_within_binary64 (input : list float) (l : float) :
  forallb (fun v => negb (is_nan v)) input = true ->
  within_clip (FO := Binary64) l = true ->
  within_clip (FO := Binary64)
    (fst (adclip_run (FO := Binary64) l input)) = true /\
  forallb (within_clip (FO := Binary64))
    (snd (adclip_run (FO := Binary64) l input)) = true /\
  Forall (fun o => PrimFloat.ltb (-1)%float o = true /\
                   PrimFloat.ltb o 1%float = true)
         (snd (adclip_run (FO := Binary64) l input)).
Proof.
  intros Hn Wl. destruct (adclip_run_binary64 input l Hn Wl) as [A B].
  split; [exact A|]. split; [exact B|].
  rewrite forallb_forall in B. apply Forall_forall.
  intros o Ho. apply within_clip_unit, B, Ho.
Qed.

Lemma adclip_run_within_binary64_witness :
  within_clip (FO := Binary64)
    (fst (adclip_run (FO := Binary64) 0%float
            [1%float; 2.5%float; (-7)%float; infinity; 0.3%float])) = true.
Proof.
  exact (proj1 (adclip_run_within_binary64
                  [1%float; 2.5%float; (-7)%float; infinity; 0.3%float]
                  0%float eq_refl eq_refl)).
Defined.

(** NaN in the binary64 clipper: a NaN sample is returned and stored as
    NaN; on a NaN memory the clipper is the plain hard clamp of the
    sample, so that one number later the memory is a number within the
    clamp again. *)
Theorem adclip_nan_recovery (v l : float) :
  adclip (FO := Binary64) nan l = (nan, nan) /\
  fst (adclip (FO := Binary64) v nan) = hardclip (FO := Binary64) v /\
  (is_nan v = false ->
   within_clip (FO := Binary64) (snd (adclip (FO := Binary64) v nan)) = true).
Proof.
  split; [|split].
  - unfold adclip. lazy. reflexivity.
  - apply adclip_nan_memory.
  - intros Nv. rewrite <- adclip_returns_memory, adclip_nan_memory.
    destruct (hardclip_binary64 v) as [N | W]; [|exact W].
    exfalso. revert N. unfold hardclip. cbn [fgt flt fneg lit Binary64].
    destruct (PrimFloat.ltb (b64 c_0_99) v);
      [vm_compute; discriminate|].
    destruct (PrimFloat.ltb v (- b64 c_0_99)%float);
      [vm_compute; discriminate|].
    congruence.
Qed.



Lemma spiral_saturate_odd_binary64_witness :
  spiral_saturate (LM := libm_identity) (PrimFloat.opp 0.5%float) =
  PrimFloat.opp (spiral_saturate (LM := libm_identity) 0.5%float).
Proof.
  exact (proj1 (spiral_saturate_odd_binary64 libm_identity 0.5%float
                  (fun t => eq_refl)) eq_refl).
Defined.


Local Open Scope R_scope.

(** ** Polarity *)

Lemma phase_update_odd (roll hbf mid hb : R) (bq : biquad R) (g : R) :
  phase_update roll hbf (- mid) (- hb) (negate_biquad bq) (- g) =
  let '(m, h, b, hs) := phase_update roll hbf mid hb bq g in
  (- m, - h, negate_biquad b, - hs).
Proof.
  unfold phase_update, negate_biquad.
  cbn [bq0 bq1 bq2 bq3 bq4 bq5 bq6 bq7 bq8]. exact_simpl.
  set (u := hb + g * (5 * / 100)).
  replace (- hb + - g * (5 * / 100)) with (- u) by (unfold u; ring).
  set (a := u - u * u * u * hbf).
  replace (- u - - u * - u * - u * hbf) with (- a) by (unfold a; ring).
  rewrite sin_neg. set (sa := sin a).
  set (t := sa * bq2 bq + bq7 bq).
  replace (- sa * bq2 bq + - bq7 bq) with (- t) by (unfold t; ring).
  apply (f_equal2 pair); [apply (f_equal2 pair); [apply (f_equal2 pair)|]|].
  - ring.
  - rewrite <- asin_opp. f_equal. split_prune; lra.
  - f_equal; ring.
  - ring.
Qed.

Lemma soften_odd (h g : R) : soften (- h) (- g) = - soften h g.
Proof.
  unfold soften. exact_simpl. rewrite Rabs_Ropp.
  set (a := 1 * / 1 - cos _). clearbody a. split_prune; lra.
Qed.

Lemma suppress_even (w : R) : suppress_of (- w) = suppress_of w.
Proof. unfold suppress_of. exact_simpl. now rewrite Rabs_Ropp. Qed.

Lemma restrain_odd (sup h : R) :
  0 <= sup -> restrain sup (- h) = - restrain sup h.
Proof. intros Hs. unfold restrain. exact_simpl. split_prune; lra. Qed.

Lemma hardclip_odd (v : R) : hardclip (- v) = - hardclip v.
Proof. unfold hardclip. exact_simpl. split_prune; lra. Qed.

Lemma adclip_odd (v l : R) :
  fst (adclip (- v) (- l)) = - fst (adclip v l).
Proof.
  unfold adclip. exact_simpl. cbn [fst]. split_prune; lra.
Qed.

Lemma flip_step_odd (roll hbf : R) (x : t_tape R) (g : R) :
  flip_step roll hbf (negate x) (- g) =
  (negate (fst (flip_step roll hbf x g)), - snd (flip_step roll hbf x g)).
Proof.
  unfold flip_step.
  cbn [negate flip iirMidRollerA iirMidRollerB iirHeadBumpA iirHeadBumpB
       biquadA biquadB lastSample x_sr].
  destruct (Z.eqb (flip x) 0); rewrite phase_update_odd;
    destruct (phase_update roll hbf _ _ _ g) as [[[m h] b] hs];
    reflexivity.
Qed.

Lemma pre_clip_odd (roll hbf : R) (x : t_tape R) (s : R) :
  pre_clip roll hbf (negate x) (- s) =
  (negate (fst (pre_clip roll hbf x s)), - snd (pre_clip roll hbf x s)).
Proof.
  unfold pre_clip.
  replace (fmul (- s) (lit INPUT_GAIN)) with (- fmul s (lit INPUT_GAIN))
    by (exact_simpl; ring).
  rewrite flip_step_odd.
  destruct (flip_step roll hbf x (fmul s (lit INPUT_GAIN))) as [x1 hs].
  cbn [fst snd]. rewrite soften_odd, spiral_saturate_odd, suppress_even.
  pose proof (suppress_exact (soften hs (fmul s (lit INPUT_GAIN)))) as [P _].
  cbn [negate iirHeadBumpA iirHeadBumpB iirMidRollerA iirMidRollerB biquadA
       biquadB lastSample flip x_sr fst snd].
  rewrite !restrain_odd by exact P.
  f_equal. exact_simpl. ring.
Qed.

Lemma tape_sample_odd (roll hbf : R) (x : t_tape R) (s : R) :
  tape_sample roll hbf (negate x) (- s) =
  (negate (fst (tape_sample roll hbf x s)), - snd (tape_sample roll hbf x s)).
Proof.
  unfold tape_sample. rewrite pre_clip_odd.
  destruct (pre_clip roll hbf x s) as [x2 v]. cbn [fst snd].
  cbn [negate lastSample].
  pose proof (adclip_odd v (lastSample x2)) as Ho.
  pose proof (adclip_returns_memory (- v) (- lastSample x2)) as M1.
  pose proof (adclip_returns_memory v (lastSample x2)) as M2.
  destruct (adclip (- v) (- lastSample x2)) as [o1 l1].
  destruct (adclip v (lastSample x2)) as [o2 l2].
  cbn [fst snd] in *. subst l1 l2 o1.
  rewrite hardclip_odd. reflexivity.
Qed.

Lemma tape_loop_odd (roll hbf : R) (input : list R) :
  forall x : t_tape R,
    tape_loop roll hbf (negate x) (map Ropp input) =
    (negate (fst (tape_loop roll hbf x input)),
     map Ropp (snd (tape_loop roll hbf x input))).
Proof.
  induction input as [|s rest IH]; intros x; cbn [map tape_loop].
  - reflexivity.
  - rewrite tape_sample_odd.
    destruct (tape_sample roll hbf x s) as [x1 o]. cbn [fst snd].
    rewrite IH. destruct (tape_loop roll hbf x1 rest) as [x2 os].
    reflexivity.
Qed.

Lemma negate_fresh (sr : R) :
  negate (tape_dsp sr tape_new) = tape_dsp sr tape_new.
Proof.
  unfold negate, negate_biquad, tape_dsp, tape_new, biquad_zero.
  cbn [x_sr iirMidRollerA iirMidRollerB iirHeadBumpA iirHeadBumpB biquadA
       biquadB lastSample flip bq0 bq1 bq2 bq3 bq4 bq5 bq6 bq7 bq8].
  exact_simpl. replace (- (0 * / 1)) with (0 * / 1) by lra. reflexivity.
Qed.

(** Polarity: the negated block on the negated memory gives the negated
    output and leaves the negated memory; on an object fresh from
    [tape_new], at any sample rate, the negated block gives the negated
    output (exact arithmetic). *)
Theorem polarity_symmetry (x : t_tape R) (input : list R) :
  tape_perform (negate x) (map Ropp input) =
  (negate (fst (tape_perform x input)),
   map Ropp (snd (tape_perform x input))) /\
  (forall sr : R,
     snd (tape_perform (tape_dsp sr tape_new) (map Ropp input)) =
     map Ropp (snd (tape_perform (tape_dsp sr tape_new) input))).
Proof.
  assert (G : forall y : t_tape R,
            tape_perform (negate y) (map Ropp input) =
            (negate (fst (tape_perform y input)),
             map Ropp (snd (tape_perform y input)))).
  { intros y. unfold tape_perform.
    change (x_sr (negate y)) with (x_sr y).
    change (store_coefs (negate y)) with (negate (store_coefs y)).
    apply tape_loop_odd. }
  split; [apply G|].
  intros sr. rewrite <- (negate_fresh sr) at 1. rewrite G. reflexivity.
Qed.


(** ** Silence as a fixed point *)

Lemma phase_update_quiet (roll hbf : R) (bq : biquad R) :
  bq7 bq = 0 -> bq8 bq = 0 ->
  phase_update roll hbf 0 0 bq 0 =
  (0, 0, Biquad (bq0 bq) (bq1 bq) (bq2 bq) (bq3 bq) (bq4 bq) (bq5 bq)
                (bq6 bq) 0 0, 0).
Proof.
  intros E7 E8. unfold phase_update. rewrite E7, E8. exact_simpl.
  replace (0 + 0 * (5 * / 100)) with 0 by ring.
  replace (0 - 0 * 0 * 0 * hbf) with 0 by ring.
  rewrite sin_0.
  replace (0 * bq2 bq + 0) with 0 by ring.
  apply (f_equal2 pair); [apply (f_equal2 pair); [apply (f_equal2 pair)|]|].
  - ring.
  - transitivity (asin 0); [f_equal; split_prune; lra | apply asin_0].
  - f_equal; ring.
  - ring.
Qed.

Lemma soften_quiet : soften 0 0 = 0.
Proof.
  unfold soften. exact_simpl. rewrite Rabs_R0.
  replace (0 * (157079633 * / 100000000)) with 0 by ring.
  split_prune; rewrite ?cos_0; lra.
Qed.

Lemma spiral_saturate_zero : spiral_saturate 0 = 0.
Proof.
  pose proof (spiral_saturate_bound 0) as [B _].
  rewrite Rabs_R0 in B. pose proof (Rabs_pos (spiral_saturate 0)).
  destruct (Req_dec (spiral_saturate 0) 0) as [E | E]; [exact E|].
  apply Rabs_pos_lt in E. lra.
Qed.

Lemma restrain_zero (sup : R) : 0 <= sup -> restrain sup 0 = 0.
Proof. intros H. unfold restrain. exact_simpl. split_prune; lra. Qed.

Lemma adclip_zero : adclip 0 0 = (0, 0).
Proof.
  unfold adclip. exact_simpl. split_prune; reflexivity.
Qed.

Lemma hardclip_zero : hardclip 0 = 0.
Proof. unfold hardclip. exact_simpl. split_prune; lra. Qed.

Lemma tape_sample_quiet (roll hbf : R) (x : t_tape R) :
  quiet x ->
  snd (tape_sample roll hbf x 0) = 0 /\ quiet (fst (tape_sample roll hbf x 0)).
Proof.
  destruct x as [sr mA mB hA hB bA bB l f].
  unfold quiet. cbn [iirMidRollerA iirMidRollerB iirHeadBumpA iirHeadBumpB
                     biquadA biquadB lastSample].
  intros (-> & -> & -> & -> & A7 & A8 & B7 & B8 & ->).
  unfold tape_sample, pre_clip, flip_step.
  replace (fmul 0 (lit INPUT_GAIN)) with 0 by (exact_simpl; ring).
  cbn [flip iirMidRollerA iirMidRollerB iirHeadBumpA iirHeadBumpB
       biquadA biquadB lastSample x_sr].
  pose proof (suppress_exact (soften 0 0)) as [P _].
  destruct (Z.eqb f 0);
    rewrite phase_update_quiet by assumption;
    cbn [fst snd iirMidRollerA iirMidRollerB iirHeadBumpA iirHeadBumpB
         biquadA biquadB lastSample x_sr flip];
    rewrite !(restrain_zero _ P);
    rewrite soften_quiet, spiral_saturate_zero;
    replace (fadd 0 (fmul (fadd 0 0) (lit HEAD_BUMP))) with 0
      by (exact_simpl; ring);
    rewrite adclip_zero;
    cbn [fst snd iirMidRollerA iirMidRollerB iirHeadBumpA iirHeadBumpB
         biquadA biquadB lastSample x_sr flip bq7 bq8];
    rewrite hardclip_zero; tauto.
Qed.

Lemma tape_loop_quiet (roll hbf : R) (n : nat) :
  forall x : t_tape R, quiet x ->
    snd (tape_loop roll hbf x (repeat 0 n)) = repeat 0 n /\
    quiet (fst (tape_loop roll hbf x (repeat 0 n))).
Proof.
  induction n as [|n IH]; intros x Hq; cbn [repeat tape_loop].
  - split; [reflexivity | exact Hq].
  - destruct (tape_sample_quiet roll hbf x Hq) as [Ho Hq1].
    destruct (tape_sample roll hbf x 0) as [x1 o]. cbn [fst snd] in *.
    destruct (IH x1 Hq1) as [I1 I2].
    destruct (tape_loop roll hbf x1 (repeat 0 n)) as [x2 os].
    cbn [fst snd] in *. subst. tauto.
Qed.

Lemma store_coefs_quiet (x : t_tape R) : quiet x -> quiet (store_coefs x).
Proof. unfold quiet, store_coefs, set_coefs. cbn. tauto. Qed.

(** Silence in, silence out: on an object that holds no signal, at
    any sample rate, a block of zeros comes out as zeros and leaves no
    signal in the object. *)
Theorem silence_is_kept (x : t_tape R) (n : nat) :
  quiet x ->
  snd (tape_perform x (repeat 0 n)) = repeat 0 n /\
  quiet (fst (tape_perform x (repeat 0 n))).
Proof.
  intros Hq. unfold tape_perform. apply tape_loop_quiet.
  now apply store_coefs_quiet.
Qed.

Lemma silence_is_kept_witness :
  snd (tape_perform (tape_dsp 44100 tape_new) (repeat 0 3)) = repeat 0 3 /\
  quiet (fst (tape_perform (tape_dsp 44100 tape_new) (repeat 0 3))).
Proof.
  apply (silence_is_kept (tape_dsp 44100 tape_new) 3).
  unfold quiet. cbn. exact_simpl. repeat split; lra.
Defined.


(** ** The rollers as weighted means *)

(** A pair of samples of the same value [c] brings each roller closer
    to [c] by the factor [1 - roll]. *)
Lemma rollers_run_const (roll c : R) (k : nat) :
  forall (mA mB : R) (fl : Z),
    rollers_run roll mA mB fl (repeat c (2 * k)) =
    (c + (mA - c) * (1 - roll) ^ k, c + (mB - c) * (1 - roll) ^ k,
     match k with O => fl | S _ => if Z.eqb fl 0 then 0%Z else 1%Z end).
Proof.
  induction k as [|k IH]; intros mA mB fl.
  - change (2 * 0)%nat with 0%nat. cbn [repeat rollers_run pow].
    f_equal. f_equal; lra.
  - replace (2 * S k)%nat with (S (S (2 * k))) by lia.
    cbn [repeat rollers_run]. exact_simpl.
    destruct (Z.eqb fl 0) eqn:E; cbn [Z.eqb]; rewrite IH; cbn [pow];
      (f_equal; [f_equal; lra | destruct k; reflexivity]).
Qed.

Lemma roll_convex (sr : R) : 16845 <= sr -> 0 <= RollAmount sr <= 1.
Proof.
  intros Hsr.
  unfold RollAmount, overallscale. exact_simpl.
  set (phi := 618033988749894848204586 * / 1000000000000000000000000).
  assert (G : 0.61803 < phi < 0.61804) by (unfold phi; lra).
  replace ((1 * / 1 - phi) / (sr / (44100 * / 1)))
    with ((1 - phi) * 44100 / sr) by (field; lra).
  assert (Hi : 0 < / sr) by (apply Rinv_0_lt_compat; lra).
  assert (E : sr * / sr = 1) by (apply Rinv_r; lra).
  unfold Rdiv.
  assert (U : (1 - phi) * 44100 * / sr <= sr * / sr).
  { apply Rmult_le_compat_r; lra. }
  assert (L : 0 <= (1 - phi) * 44100 * / sr).
  { apply Rmult_le_pos; lra. }
  lra.
Qed.

Lemma blend_in_range (roll m g M : R) :
  0 <= roll <= 1 -> Rabs m <= M -> Rabs g <= M ->
  Rabs (m * (1 - roll) + g * roll) <= M.
Proof.
  intros Hr Hm Hg. apply Rabs_le.
  assert (Am : - M <= m <= M)
    by (revert Hm; unfold Rabs; destruct (Rcase_abs m); lra).
  assert (Ag : - M <= g <= M)
    by (revert Hg; unfold Rabs; destruct (Rcase_abs g); lra).
  nra.
Qed.

Lemma rollers_run_in_range (roll M : R) (input : list R) :
  0 <= roll <= 1 -> Forall (fun s => Rabs s <= M) input ->
  forall (mA mB : R) (fl : Z),
    Rabs mA <= M -> Rabs mB <= M ->
    Rabs (fst (fst (rollers_run roll mA mB fl input))) <= M /\
    Rabs (snd (fst (rollers_run roll mA mB fl input))) <= M.
Proof.
  intros Hr Hin. induction Hin as [|s rest Hs _ IH]; intros mA mB fl HA HB.
  - cbn. tauto.
  - cbn [rollers_run].
    assert (Hg : Rabs (fmul s (lit INPUT_GAIN)) <= M).
    { replace (fmul s (lit INPUT_GAIN)) with s by (exact_simpl; field).
      exact Hs. }
    set (g := fmul s (lit INPUT_GAIN)) in *. clearbody g.
    destruct (Z.eqb fl 0); apply IH; try assumption;
      exact_simpl; replace (1 * / 1) with 1 by field;
      apply blend_in_range; assumption.
Qed.

(** On a constant input the rollers approach it geometrically: after
    [2 k] samples of value [c] the distance of each roller to [c] has
    been multiplied by [(1 - RollAmount)^k]. *)
Theorem rollers_track_constant (x : t_tape R) (c : R) (k : nat) :
  let q := 1 - RollAmount (x_sr x) in
  let x' := fst (tape_perform x (repeat c (2 * k))) in
  iirMidRollerA x' - c = (iirMidRollerA x - c) * q ^ k /\
  iirMidRollerB x' - c = (iirMidRollerB x - c) * q ^ k.
Proof.
  cbv zeta.
  destruct (tape_perform_rollers x (repeat c (2 * k))) as (EA & EB & _).
  rewrite EA, EB, rollers_run_const. cbn [fst snd]. split; ring.
Qed.

(** From 16845 Hz on, [RollAmount] lies in [0, 1] and each roller
    update is a weighted mean of the roller and the sample: rollers that
    start within [-M, M] stay there on every block of samples within
    [-M, M]. *)
Theorem rollers_stay_in_range (x : t_tape R) (input : list R) (M : R) :
  16845 <= x_sr x ->
  Rabs (iirMidRollerA x) <= M -> Rabs (iirMidRollerB x) <= M ->
  Forall (fun s => Rabs s <= M) input ->
  0 <= RollAmount (x_sr x) <= 1 /\
  Rabs (iirMidRollerA (fst (tape_perform x input))) <= M /\
  Rabs (iirMidRollerB (fst (tape_perform x input))) <= M.
Proof.
  intros Hsr HA HB Hin. pose proof (roll_convex _ Hsr) as Hr.
  split; [exact Hr|].
  destruct (tape_perform_rollers x input) as (EA & EB & _).
  rewrite EA, EB. now apply rollers_run_in_range.
Qed.

Lemma rollers_stay_in_range_witness :
  Rabs (iirMidRollerB
          (fst (tape_perform (tape_dsp 44100 tape_new) [1; -1; 1 / 2]))) <= 1.
Proof.
  refine (proj2 (proj2 (rollers_stay_in_range (tape_dsp 44100 tape_new)
                          [1; -1; 1 / 2] 1 _ _ _ _))).
  - cbn [tape_dsp x_sr]. lra.
  - cbn [tape_dsp tape_new iirMidRollerA]. exact_simpl.
    unfold Rabs. destruct Rcase_abs; lra.
  - cbn [tape_dsp tape_new iirMidRollerB]. exact_simpl.
    unfold Rabs. destruct Rcase_abs; lra.
  - repeat constructor; unfold Rabs; destruct Rcase_abs; lra.
Defined.


(** ** The saturator and the clipper in exact arithmetic *)

Lemma spiral_core_sign (y : R) :
  0 <= y <= 1.2533141373155 -> 0 <= sin (y * Rabs y) / Rabs y.
Proof.
  intros Hy. rewrite (Rabs_pos_eq y) by lra.
  destruct (Req_dec y 0) as [-> | Hne].
  - replace (0 * 0) with 0 by ring. rewrite sin_0. unfold Rdiv. lra.
  - assert (Hp : 0 < y) by lra.
    pose proof PI2_3_2 as P.
    assert (H1 : 0 <= y * y) by nra.
    assert (H2 : y * y <= PI) by nra.
    pose proof (sin_ge_0 (y * y) H1 H2) as Hs.
    apply Rmult_le_pos; [exact Hs|].
    apply Rlt_le, Rinv_0_lt_compat, Hp.
Qed.

Lemma spiral_saturate_sign (x : R) : 0 <= x -> 0 <= spiral_saturate x.
Proof.
  intros Hx. unfold spiral_saturate. exact_simpl.
  replace (0 * / 1) with 0 by lra.
  split_prune; try lra;
    match goal with
    | |- 0 <= sin (?y * Rabs ?y) / Rabs ?y => apply spiral_core_sign; lra
    end.
Qed.

Lemma spiral_saturate_plateau (x : R) :
  1.2533141373155 <= x ->
  spiral_saturate x = spiral_saturate 1.2533141373155.
Proof.
  intros Hx. destruct (Req_dec x 1.2533141373155) as [-> | Hne];
    [reflexivity|].
  unfold spiral_saturate. exact_simpl. unfold Rltb.
  repeat match goal with
         | |- context [Rlt_dec ?a ?b] =>
             no_dec a; no_dec b; destruct (Rlt_dec a b);
             try (exfalso; lra); cbv beta iota
         end.
  replace (12533141373155 * / 10000000000000) with 1.2533141373155 by lra.
  reflexivity.
Qed.

(** The shape of the saturator, in exact arithmetic: it keeps the sign
    of its input, never exceeds 1 nor the input in magnitude, and is
    constant beyond the clamp on either side. *)
Theorem spiral_saturate_shape (x : R) :
  0 <= x * spiral_saturate x /\
  Rabs (spiral_saturate x) <= 1 /\
  Rabs (spiral_saturate x) <= Rabs x /\
  (1.2533141373155 <= x ->
   spiral_saturate x = spiral_saturate 1.2533141373155) /\
  (x <= -1.2533141373155 ->
   spiral_saturate x = - spiral_saturate 1.2533141373155).
Proof.
  destruct (spiral_saturate_bound x) as [B1 B2].
  split; [|split; [exact B2|split; [exact B1|split]]].
  - destruct (Rle_or_lt 0 x) as [H | H].
    + pose proof (spiral_saturate_sign x H). nra.
    + pose proof (spiral_saturate_sign (- x) ltac:(lra)) as S.
      rewrite spiral_saturate_odd in S. nra.
  - apply spiral_saturate_plateau.
  - intros H. rewrite <- (spiral_saturate_plateau (- x)) by lra.
    rewrite spiral_saturate_odd. ring.
Qed.

(** The clipper alone is odd: on the negated sequence from the negated
    memory it returns the negated values and ends on the negated
    memory. *)
Theorem clipper_is_odd (input : list R) (l : R) :
  adclip_run (- l) (map Ropp input) =
  (- fst (adclip_run l input), map Ropp (snd (adclip_run l input))).
Proof.
  revert l. induction input as [|s rest IH]; intros l; cbn [map adclip_run].
  - reflexivity.
  - pose proof (adclip_odd s l) as Ho.
    pose proof (adclip_returns_memory (- s) (- l)) as M1.
    pose proof (adclip_returns_memory s l) as M2.
    destruct (adclip (- s) (- l)) as [o1 l1].
    destruct (adclip s l) as [o2 l2]. cbn [fst snd] in *. subst l1 l2 o1.
    rewrite IH. destruct (adclip_run o2 rest) as [final os]. reflexivity.
Qed.



